(** * The event-handler core of the file-indexing service

    A shallow embedding of [src/server/src/core/base_event_handler.cpp].

    The handler owns two FIFO lanes (the pending records drained by the
    scheduled task, and the addition jobs drained by the worker thread), a
    shutdown flag and one mutex, and talks to two collaborators whose code
    lives elsewhere: the index manager and the mount manager.  The
    collaborators are taken as interfaces (type classes); every member
    function of the handler is written in a small state-and-failure monad
    over the handler's fields, and appends what it touches to a journal so
    that call sequences and lock discipline can be stated. *)

From Stdlib Require Import List String Ascii ZArith Lia Bool Arith PeanoNat.
Import ListNotations.
Local Open Scope list_scope.

Set Implicit Arguments.

(** ** Collaborators *)

(** [anything::index_manager], as far as the handler calls it.  The readers
    ([deletion_jobs_ready], [document_exists], [search], [index_directory])
    return simple values and leave the index as it is. *)
Module index_manager.
Class ops (file_record Store : Type) : Type := {
  add_index : file_record -> Store -> Store;
  add_index_delay : file_record -> Store -> Store;
  remove_index : string -> Store -> Store;
  remove_index_delay : string -> Store -> Store;
  deletion_jobs_ready : Store -> bool;
  process_deletion_jobs : Store -> Store;
  document_exists : string -> Store -> bool;
  search : string -> string -> Z -> Z -> bool -> Store -> list string;
  index_directory : Store -> string;
  set_index_change_filter : (string -> bool) -> Store -> Store
}.
End index_manager.

(** [anything::mount_manager], as far as the handler calls it. *)
Module mount_manager.
Class ops (Mnt : Type) : Type := {
  update : Mnt -> Mnt;
  path_match_type : string -> string -> Mnt -> bool;
  contains_device : Z -> Mnt -> bool;
  get_mount_point : Z -> Mnt -> string
}.
End mount_manager.

(** ** A reference index and mount table

    The classes behind the two interfaces are not among the sources at hand.
    The instances below follow the specification's description of them and
    serve to run the handler on concrete inputs. *)
Module model.

(** Modelled from the spec: [anything::file_record] of
    common/file_record.hpp is missing; a change record is "one file-system
    change (identity = path + kind + timestamp)". *)
Record file_record : Type := FileRecord {
  full_path : string;
  kind : nat;
  modified : Z
}.

(** Modelled from the spec: the index behind [anything::index_manager] is
    missing.  An immediate add or remove is applied to the index at once; a
    delayed add or remove is "a mutation queued for later batch application
    rather than applied immediately"; a deletion job is "a pending removal
    owned and scheduled internally by the Index Store".  [documentExists]
    answers for the documents of the index together with the additions
    that are queued: the specification has [addPath], which only queues a
    delayed add, return [documentExists(path)] and this be "true ... after
    success"; and since [removePath] "always yields hasRecord(path) ==
    false afterward", an immediate removal also takes the path out of the
    queued additions.  The matching and ranking of a query are outside the
    specification: a query returns the indexed paths below [path], in index
    order, windowed by the offset and the count. *)
Record store : Type := Store {
  documents : list string;
  delayed_additions : list file_record;
  delayed_deletions : list string;
  directory : string;
  change_filter : string -> bool
}.

Definition empty_store (dir : string) : store :=
  Store [] [] [] dir (fun _ => true).

Definition without (path : string) (docs : list string) : list string :=
  filter (fun d => negb (String.eqb d path)) docs.

(** The queued additions, without those for [path]. *)
Definition unqueue (path : string) (l : list file_record) : list file_record :=
  filter (fun r => negb (String.eqb (full_path r) path)) l.

Definition drop_all (paths docs : list string) : list string :=
  fold_left (fun acc p => without p acc) paths docs.

Definition has_no_delayed_deletion (s : store) : bool :=
  match delayed_deletions s with [] => true | _ :: _ => false end.

#[export] Instance store_ops : index_manager.ops file_record store := {|
  index_manager.add_index := fun r s =>
    Store (without (full_path r) (documents s) ++ [full_path r])
          (delayed_additions s) (delayed_deletions s) (directory s) (change_filter s);
  index_manager.add_index_delay := fun r s =>
    Store (documents s) (delayed_additions s ++ [r]) (delayed_deletions s)
          (directory s) (change_filter s);
  index_manager.remove_index := fun p s =>
    Store (without p (documents s)) (unqueue p (delayed_additions s))
          (delayed_deletions s) (directory s) (change_filter s);
  index_manager.remove_index_delay := fun t s =>
    Store (documents s) (delayed_additions s) (delayed_deletions s ++ [t])
          (directory s) (change_filter s);
  index_manager.deletion_jobs_ready := fun s => negb (has_no_delayed_deletion s);
  index_manager.process_deletion_jobs := fun s =>
    Store (drop_all (delayed_deletions s) (documents s)) (delayed_additions s) []
          (directory s) (change_filter s);
  index_manager.document_exists := fun p s =>
    existsb (String.eqb p) (documents s) ||
    existsb (fun r => String.eqb p (full_path r)) (delayed_additions s);
  index_manager.search := fun path keywords offset max_count fuzzy s =>
    firstn (Z.to_nat max_count)
      (skipn (Z.to_nat offset) (filter (String.prefix path) (documents s)));
  index_manager.index_directory := directory;
  index_manager.set_index_change_filter := fun f s =>
    Store (documents s) (delayed_additions s) (delayed_deletions s) (directory s) f
|}.

(** Modelled from the spec: [anything::mount_manager] is missing; the mount
    snapshot is a "deviceId -> mountpoint map and longest-prefix
    filesystem-type lookup, refreshed on demand". *)
Record mount_entry : Type := Mount {
  device : Z;
  mount_point : string;
  fs_type : string
}.

Record mounts : Type := Mounts {
  system_table : list mount_entry;
  snapshot : list mount_entry
}.

(** The entry with the longest mount point that is a prefix of [path]. *)
Fixpoint covering (path : string) (l : list mount_entry) : option mount_entry :=
  match l with
  | [] => None
  | m :: t =>
      if String.prefix (mount_point m) path then
        match covering path t with
        | Some m' =>
            if Nat.ltb (String.length (mount_point m)) (String.length (mount_point m'))
            then Some m' else Some m
        | None => Some m
        end
      else covering path t
  end.

#[export] Instance mounts_ops : mount_manager.ops mounts := {|
  mount_manager.update := fun m => Mounts (system_table m) (system_table m);
  mount_manager.path_match_type := fun path t m =>
    match covering path (snapshot m) with
    | Some e => String.eqb (fs_type e) t
    | None => false
    end;
  mount_manager.contains_device := fun d m =>
    existsb (fun e => Z.eqb (device e) d) (snapshot m);
  mount_manager.get_mount_point := fun d m =>
    match find (fun e => Z.eqb (device e) d) (snapshot m) with
    | Some e => mount_point e
    | None => EmptyString
    end
|}.

(** Modelled from the spec: [anything::file_helper::generate_file_record]
    is missing; record generation fails when "the record could not be
    derived from the path (e.g., target vanished)".  [present] lists the
    paths that exist on disk. *)
Definition generate_file_record (present : list string) (path : string)
  : option file_record :=
  if existsb (String.eqb path) present then Some (FileRecord path 0 0) else None.

End model.

(** ** Strings *)

(** Modelled from the spec: [anything::ends_with] of utils/string_helper.h is
    not part of the sources at hand; the filter's first rule reads "if path
    ends with the reserved suffix", so [ends_with s suffix] holds exactly
    when [suffix] is a suffix of [s]. *)
Definition ends_with (s suffix : string) : bool :=
  let n := String.length s in
  let m := String.length suffix in
  Nat.leb m n && String.eqb (substring (n - m) m s) suffix.

(** ** The journal *)

Section Journal.
Variable file_record : Type.

(** One call into the index manager. *)
Inductive store_call : Type :=
| CallAddIndex (r : file_record)
| CallAddIndexDelay (r : file_record)
| CallRemoveIndex (path : string)
| CallRemoveIndexDelay (term : string)
| CallDeletionJobsReady
| CallProcessDeletionJobs
| CallDocumentExists (path : string)
| CallSearch (path keywords : string) (offset max_count : Z) (fuzzy : bool)
| CallIndexDirectory
| CallSetIndexChangeFilter.

(** One call into the mount manager. *)
Inductive mount_call : Type :=
| CallUpdate
| CallPathMatchType (path fs_type : string)
| CallContainsDevice (device_id : Z)
| CallGetMountPoint (device_id : Z).

(** What a statement of the handler touches. *)
Inductive action : Type :=
| OnStore (c : store_call)
| OnMount (c : mount_call)
| OnRecords
| OnAdditionJobs
| OnShouldStop
| NotifyOne
| EatJobs.

(** A journal entry: the action, and whether [mtx_] was held by the
    running member function when it happened. *)
Record entry : Type := Entry { act : action; held : bool }.

Definition store_call_of (e : entry) : option store_call :=
  match act e with OnStore c => Some c | _ => None end.

Definition mount_call_of (e : entry) : option mount_call :=
  match act e with OnMount c => Some c | _ => None end.

Fixpoint pick {A B : Type} (f : A -> option B) (l : list A) : list B :=
  match l with
  | [] => []
  | x :: t => match f x with Some y => y :: pick f t | None => pick f t end
  end.

Definition store_calls (j : list entry) : list store_call := pick store_call_of j.
Definition mount_calls (j : list entry) : list mount_call := pick mount_call_of j.

Definition is_notify (e : entry) : bool :=
  match act e with NotifyOne => true | _ => false end.

Definition is_eat_jobs (e : entry) : bool :=
  match act e with EatJobs => true | _ => false end.

(** How many times [eat_jobs] was entered. *)
Definition drain_cycles (j : list entry) : nat := List.length (filter is_eat_jobs j).

(** An entry respects the lock when it is a bare [cv_.notify_one()] (which
    needs no lock) or happened with [mtx_] held. *)
Definition guarded (e : entry) : bool := is_notify e || held e.
End Journal.

Arguments CallRemoveIndex {file_record}.
Arguments CallRemoveIndexDelay {file_record}.
Arguments CallDeletionJobsReady {file_record}.
Arguments CallProcessDeletionJobs {file_record}.
Arguments CallDocumentExists {file_record}.
Arguments CallSearch {file_record}.
Arguments CallIndexDirectory {file_record}.
Arguments CallSetIndexChangeFilter {file_record}.
Arguments OnMount {file_record}.
Arguments OnRecords {file_record}.
Arguments OnAdditionJobs {file_record}.
Arguments OnShouldStop {file_record}.
Arguments NotifyOne {file_record}.
Arguments EatJobs {file_record}.

(** ** The handler *)

Module base_event_handler.
Section Engine.
Context {file_record Store Mnt : Type}.
Context {IM : index_manager.ops file_record Store}.
Context {MM : mount_manager.ops Mnt}.

(** [anything::file_helper::generate_file_record], an outside helper that
    yields no record when the path cannot be described. *)
Variable generate_file_record : string -> option file_record.

(** The data members of the class.  Sizes are [size_t] and only ever
    compared, so they are naturals; [steady_clock] instants and durations
    are integers of one tick unit.  [mtx_] is [true] while the member
    function that is running holds the mutex; [journal] is a ghost field. *)
Record handler : Type := Handler {
  index_manager_ : Store;
  mnt_manager_ : Mnt;
  records_ : list file_record;
  addition_jobs_ : list file_record;
  batch_size_ : nat;
  batch_interval_ : Z;
  last_addition_time_ : Z;
  should_stop_ : bool;
  mtx_ : bool;
  journal : list (entry file_record)
}.

Definition with_index_manager (v : Store) (h : handler) : handler :=
  Handler v (mnt_manager_ h) (records_ h) (addition_jobs_ h) (batch_size_ h)
    (batch_interval_ h) (last_addition_time_ h) (should_stop_ h) (mtx_ h) (journal h).
Definition with_mnt_manager (v : Mnt) (h : handler) : handler :=
  Handler (index_manager_ h) v (records_ h) (addition_jobs_ h) (batch_size_ h)
    (batch_interval_ h) (last_addition_time_ h) (should_stop_ h) (mtx_ h) (journal h).
Definition with_records (v : list file_record) (h : handler) : handler :=
  Handler (index_manager_ h) (mnt_manager_ h) v (addition_jobs_ h) (batch_size_ h)
    (batch_interval_ h) (last_addition_time_ h) (should_stop_ h) (mtx_ h) (journal h).
Definition with_addition_jobs (v : list file_record) (h : handler) : handler :=
  Handler (index_manager_ h) (mnt_manager_ h) (records_ h) v (batch_size_ h)
    (batch_interval_ h) (last_addition_time_ h) (should_stop_ h) (mtx_ h) (journal h).
Definition with_last_addition_time (v : Z) (h : handler) : handler :=
  Handler (index_manager_ h) (mnt_manager_ h) (records_ h) (addition_jobs_ h) (batch_size_ h)
    (batch_interval_ h) v (should_stop_ h) (mtx_ h) (journal h).
Definition with_should_stop (v : bool) (h : handler) : handler :=
  Handler (index_manager_ h) (mnt_manager_ h) (records_ h) (addition_jobs_ h) (batch_size_ h)
    (batch_interval_ h) (last_addition_time_ h) v (mtx_ h) (journal h).
Definition with_mtx (v : bool) (h : handler) : handler :=
  Handler (index_manager_ h) (mnt_manager_ h) (records_ h) (addition_jobs_ h) (batch_size_ h)
    (batch_interval_ h) (last_addition_time_ h) (should_stop_ h) v (journal h).
Definition with_journal (v : list (entry file_record)) (h : handler) : handler :=
  Handler (index_manager_ h) (mnt_manager_ h) (records_ h) (addition_jobs_ h) (batch_size_ h)
    (batch_interval_ h) (last_addition_time_ h) (should_stop_ h) (mtx_ h) v.

(** *** The monad of member functions

    A member function takes the object to a result and the object after
    it, or to nothing when it cannot go on: locking a mutex the running
    function already holds, [front()] or [pop()] on an empty container. *)
Definition M (A : Type) : Type := handler -> option (A * handler).

Definition ret {A : Type} (x : A) : M A := fun h => Some (x, h).

Definition bind {A B : Type} (c : M A) (k : A -> M B) : M B :=
  fun h => match c h with
           | Some (x, h') => k x h'
           | None => None
           end.

Notation "x <- c ;; k" := (bind c (fun x => k))
  (at level 61, c at next level, right associativity).
Notation "c ;; k" := (bind c (fun _ => k))
  (at level 61, right associativity).

Definition gets {A : Type} (f : handler -> A) : M A := fun h => Some (f h, h).
Definition modify (f : handler -> handler) : M unit := fun h => Some (tt, f h).

(** Appends an action to the journal, stamped with the lock state. *)
Definition note (a : action file_record) : M unit :=
  modify (fun h => with_journal (journal h ++ [Entry a (mtx_ h)]) h).

(** [for (size_t i = 0; i < n; ++i) body] *)
Fixpoint for_loop (n : nat) (body : M unit) : M unit :=
  match n with
  | O => ret tt
  | S k => body ;; for_loop k body
  end.

(** *** The mutex and the condition variable *)

Definition lock : M unit :=
  fun h => if mtx_ h then None else Some (tt, with_mtx true h).
Definition unlock : M unit := modify (with_mtx false).

(** [{ std::lock_guard<std::mutex> lock(mtx_); body }] *)
Definition lock_guard {A : Type} (body : M A) : M A :=
  lock ;; x <- body ;; unlock ;; ret x.

(** [cv_.notify_one()] *)
Definition notify_one : M unit := note NotifyOne.

(** *** The containers *)

Definition is_nil {A : Type} (l : list A) : bool :=
  match l with [] => true | _ :: _ => false end.

(** [records_] is a [std::deque]. *)
Definition records_empty : M bool :=
  note OnRecords ;; gets (fun h => is_nil (records_ h)).
Definition records_size : M nat :=
  note OnRecords ;; gets (fun h => List.length (records_ h)).
Definition records_front : M file_record :=
  note OnRecords ;;
  fun h => match records_ h with [] => None | r :: _ => Some (r, h) end.
Definition records_pop_front : M unit :=
  note OnRecords ;;
  fun h => match records_ h with [] => None | _ :: t => Some (tt, with_records t h) end.
Definition records_insert_end (l : list file_record) : M unit :=
  note OnRecords ;; modify (fun h => with_records (records_ h ++ l) h).

(** [addition_jobs_] is a [std::queue]. *)
Definition addition_jobs_size : M nat :=
  note OnAdditionJobs ;; gets (fun h => List.length (addition_jobs_ h)).
Definition addition_jobs_front : M file_record :=
  note OnAdditionJobs ;;
  fun h => match addition_jobs_ h with [] => None | r :: _ => Some (r, h) end.
Definition addition_jobs_pop : M unit :=
  note OnAdditionJobs ;;
  fun h => match addition_jobs_ h with
           | [] => None
           | _ :: t => Some (tt, with_addition_jobs t h)
           end.
Definition addition_jobs_push (r : file_record) : M unit :=
  note OnAdditionJobs ;; modify (fun h => with_addition_jobs (addition_jobs_ h ++ [r]) h).

(** *** Calls into the collaborators *)

Definition on_index (c : store_call file_record) (f : Store -> Store) : M unit :=
  note (OnStore c) ;; modify (fun h => with_index_manager (f (index_manager_ h)) h).
Definition ask_index {A : Type} (c : store_call file_record) (f : Store -> A) : M A :=
  note (OnStore c) ;; gets (fun h => f (index_manager_ h)).
Definition on_mounts (c : mount_call) (f : Mnt -> Mnt) : M unit :=
  note (OnMount c) ;; modify (fun h => with_mnt_manager (f (mnt_manager_ h)) h).
Definition ask_mounts {A : Type} (c : mount_call) (f : Mnt -> A) : M A :=
  note (OnMount c) ;; gets (fun h => f (mnt_manager_ h)).

(** *** Member functions *)

(** [terminate_processing], up to the join: the flag is set under the
    lock, then one waiter is notified. *)
Definition request_stop : M unit :=
  lock_guard (note OnShouldStop ;; modify (with_should_stop true)) ;;
  notify_one.

Definition run_scheduled_task : M unit :=
  empty <- records_empty ;;
  (if negb empty then
     size <- records_size ;;
     let batch_size := Nat.min 500 size in
     for_loop batch_size
       (lock_guard
          (r <- records_front ;;
           on_index (CallAddIndexDelay r) (index_manager.add_index_delay r)) ;;
        records_pop_front)
   else ret tt) ;;
  notify_one.

Definition ignored_event (path : string) (ignored : bool) : M bool :=
  if ends_with path ".longname"%string then ret true
  else
    if negb ignored then
      m <- ask_mounts (CallPathMatchType path "fuse.dlnfs"%string)
             (mount_manager.path_match_type path "fuse.dlnfs"%string) ;;
      if m then ret true else ret false
    else ret false.

Definition insert_pending_records (records : list file_record) : M unit :=
  records_insert_end records.

Definition record_size : M nat := records_size.

Definition refresh_mount_status : M unit :=
  on_mounts CallUpdate mount_manager.update.

Definition device_available (device_id : Z) : M bool :=
  ask_mounts (CallContainsDevice device_id) (mount_manager.contains_device device_id).

Definition fetch_mount_point_for_device (device_id : Z) : M string :=
  ask_mounts (CallGetMountPoint device_id) (mount_manager.get_mount_point device_id).

Definition get_index_directory : M string :=
  ask_index CallIndexDirectory index_manager.index_directory.

Definition set_index_change_filter (filter : string -> bool) : M unit :=
  lock_guard
    (on_index CallSetIndexChangeFilter (index_manager.set_index_change_filter filter)).

Definition add_index_delay (record : file_record) : M unit :=
  lock_guard
    (addition_jobs_push record ;;
     size <- addition_jobs_size ;;
     batch <- gets batch_size_ ;;
     if batch <? size then notify_one else ret tt).

Definition remove_index_delay (term : string) : M unit :=
  lock_guard
    (on_index (CallRemoveIndexDelay term) (index_manager.remove_index_delay term) ;;
     ready <- ask_index CallDeletionJobsReady index_manager.deletion_jobs_ready ;;
     if ready then notify_one else ret tt).

(** [eat_jobs], with the two readings of [steady_clock::now()] as
    arguments: the one compared with [last_addition_time_], and the one
    stored after the flush.  Entering the function is journalled. *)
Definition eat_jobs (now_checked now_stored : Z) : M unit :=
  note EatJobs ;;
  size <- addition_jobs_size ;;
  batch <- gets batch_size_ ;;
  last <- gets last_addition_time_ ;;
  interval <- gets batch_interval_ ;;
  (if (batch <? size) || (interval <=? now_checked - last)%Z then
     let batch_size := Nat.min batch size in
     for_loop batch_size
       (r <- addition_jobs_front ;;
        on_index (CallAddIndex r) (index_manager.add_index r) ;;
        addition_jobs_pop) ;;
     modify (with_last_addition_time now_stored)
   else ret tt) ;;
  ready <- ask_index CallDeletionJobsReady index_manager.deletion_jobs_ready ;;
  if ready
  then on_index CallProcessDeletionJobs index_manager.process_deletion_jobs
  else ret tt.

Definition search (path keywords : string) (offset max_count : Z) : M (list string) :=
  if (offset <? 0)%Z then ret []
  else
    lock_guard
      (ask_index (CallSearch path keywords offset max_count true)
         (index_manager.search path keywords offset max_count true)).

Definition removePath (fullPath : string) : M bool :=
  let path := fullPath in
  lock_guard
    (on_index (CallRemoveIndex path) (index_manager.remove_index path) ;;
     e <- ask_index (CallDocumentExists path) (index_manager.document_exists path) ;;
     ret (negb e)).

Definition hasLFT (path : string) : M bool :=
  lock_guard (ask_index (CallDocumentExists path) (index_manager.document_exists path)).

Definition addPath (fullPath : string) : M bool :=
  let path := fullPath in
  match generate_file_record path with
  | Some record =>
      lock_guard
        (on_index (CallAddIndexDelay record) (index_manager.add_index_delay record) ;;
         ask_index (CallDocumentExists path) (index_manager.document_exists path))
  | None => ret false
  end.

Definition index_files_in_directory (directory_path : string) : M unit := ret tt.

(** *** The worker thread *)

(** Why the worker leaves [cv_.wait_for]: it was woken (by a notification,
    or on entry, before any wait), or the 1000 ms timeout ran out. *)
Inductive wakeup : Type := Notified | TimedOut.

(** The predicate handed to [cv_.wait_for], with C++'s short-circuit
    evaluation. *)
Definition wake_predicate : M bool :=
  size <- addition_jobs_size ;;
  batch <- gets batch_size_ ;;
  if batch <? size then ret true
  else
    ready <- ask_index CallDeletionJobsReady index_manager.deletion_jobs_ready ;;
    if ready then ret true
    else note OnShouldStop ;; gets should_stop_.

(** [cv_.wait_for(lock, timeout, pred)], seen at the moment the worker
    holds the mutex again, which is
    [while (!pred()) if (timed out) return pred(); return true;].
    [None]: the predicate is false and the time is not up, the thread goes
    back to sleep. *)
Definition wait_for (w : wakeup) : M (option bool) :=
  p <- wake_predicate ;;
  if p then ret (Some true)
  else match w with
       | TimedOut => ret (Some false)
       | Notified => ret None
       end.

(** Where the worker is: blocked in (or about to enter) [wait_for] without
    the mutex, about to run [eat_jobs] with the mutex, or out of the loop. *)
Inductive worker_pc : Type := Waiting | Draining | Stopped.

(** One move of [worker_loop]. *)
Definition worker_step (w : wakeup) (now_checked now_stored : Z) (pc : worker_pc)
  : M worker_pc :=
  match pc with
  | Waiting =>
      lock ;;
      r <- wait_for w ;;
      match r with
      | None => unlock ;; ret Waiting
      | Some true =>
          note OnShouldStop ;;
          stop <- gets should_stop_ ;;
          if stop then unlock ;; ret Stopped else ret Draining
      | Some false => ret Draining
      end
  | Draining => eat_jobs now_checked now_stored ;; unlock ;; ret Waiting
  | Stopped => ret Stopped
  end.

(** What the surroundings decide for one move of the worker. *)
Definition tick : Type := (wakeup * Z * Z)%type.

Definition worker_move (t : tick) (pc : worker_pc) : M worker_pc :=
  let '(w, now_checked, now_stored) := t in worker_step w now_checked now_stored pc.

(** [worker_loop], run for as many moves as the schedule has. *)
Fixpoint worker_loop (sched : list tick) (pc : worker_pc) : M worker_pc :=
  match sched with
  | [] => ret pc
  | t :: rest => pc' <- worker_move t pc ;; worker_loop rest pc'
  end.

(** *** The object and its thread *)

(** [std::thread worker_]: where it is, and whether it can still be joined. *)
Record thread : Type := Thread { at_ : worker_pc; joinable : bool }.

Record process : Type := Process { this : handler; worker_ : thread }.

(** The constructor: [batch_size_ = 100] and the worker started.  The
    default member initialisers are in the header, which is not at hand:
    the interval and the first time stamp are arguments, the flag starts
    cleared. *)
Definition construct (index : Store) (mounts : Mnt) (interval last : Z) : process :=
  Process (Handler index mounts [] [] 100 interval last false false [])
          (Thread Waiting true).

Definition worker_run (t : tick) (p : process) : option process :=
  match worker_move t (at_ (worker_ p)) (this p) with
  | Some (pc, h) => Some (Process h (Thread pc (joinable (worker_ p))))
  | None => None
  end.

(** [worker_.join()]: the caller stays blocked while the worker moves, and
    goes on once the worker is out of its loop; [None] when the schedule
    ends before that. *)
Fixpoint join (sched : list tick) (p : process) : option process :=
  match at_ (worker_ p) with
  | Stopped => Some (Process (this p) (Thread Stopped false))
  | _ =>
      match sched with
      | [] => None
      | t :: rest =>
          match worker_run t p with
          | Some p' => join rest p'
          | None => None
          end
      end
  end.

Definition terminate_processing (sched : list tick) (p : process) : option process :=
  match request_stop (this p) with
  | None => None
  | Some (_, h) =>
      let p1 := Process h (worker_ p) in
      if joinable (worker_ p1) then join sched p1 else Some p1
  end.

(** *** The public surface *)

Inductive request : Type :=
| ReqRunScheduledTask
| ReqIgnoredEvent (path : string) (ignored : bool)
| ReqInsertPendingRecords (records : list file_record)
| ReqRecordSize
| ReqRefreshMountStatus
| ReqDeviceAvailable (device_id : Z)
| ReqFetchMountPointForDevice (device_id : Z)
| ReqGetIndexDirectory
| ReqSetIndexChangeFilter (filter : string -> bool)
| ReqAddIndexDelay (record : file_record)
| ReqRemoveIndexDelay (term : string)
| ReqSearch (path keywords : string) (offset max_count : Z)
| ReqRemovePath (fullPath : string)
| ReqHasLFT (path : string)
| ReqAddPath (fullPath : string)
| ReqIndexFilesInDirectory (directory_path : string).

Inductive reply : Type :=
| Done
| Flag (b : bool)
| Count (n : nat)
| Text (s : string)
| Hits (l : list string).

Definition serve (r : request) : M reply :=
  match r with
  | ReqRunScheduledTask => run_scheduled_task ;; ret Done
  | ReqIgnoredEvent path ignored => b <- ignored_event path ignored ;; ret (Flag b)
  | ReqInsertPendingRecords records => insert_pending_records records ;; ret Done
  | ReqRecordSize => n <- record_size ;; ret (Count n)
  | ReqRefreshMountStatus => refresh_mount_status ;; ret Done
  | ReqDeviceAvailable d => b <- device_available d ;; ret (Flag b)
  | ReqFetchMountPointForDevice d => s <- fetch_mount_point_for_device d ;; ret (Text s)
  | ReqGetIndexDirectory => s <- get_index_directory ;; ret (Text s)
  | ReqSetIndexChangeFilter f => set_index_change_filter f ;; ret Done
  | ReqAddIndexDelay record => add_index_delay record ;; ret Done
  | ReqRemoveIndexDelay term => remove_index_delay term ;; ret Done
  | ReqSearch path keywords offset max_count =>
      l <- search path keywords offset max_count ;; ret (Hits l)
  | ReqRemovePath p => b <- removePath p ;; ret (Flag b)
  | ReqHasLFT p => b <- hasLFT p ;; ret (Flag b)
  | ReqAddPath p => b <- addPath p ;; ret (Flag b)
  | ReqIndexFilesInDirectory d => index_files_in_directory d ;; ret Done
  end.

(** What can happen to the process: a caller thread runs one member
    function, some thread calls [terminate_processing], or the worker
    thread makes a move. *)
Inductive event : Type :=
| ByCaller (r : request)
| ByTerminate (sched : list tick)
| ByWorker (t : tick).

Definition happen (e : event) (p : process) : option process :=
  match e with
  | ByCaller r =>
      match serve r (this p) with
      | Some (_, h) => Some (Process h (worker_ p))
      | None => None
      end
  | ByTerminate sched => terminate_processing sched p
  | ByWorker t => worker_run t p
  end.

Fixpoint run (evs : list event) (p : process) : option process :=
  match evs with
  | [] => Some p
  | e :: rest =>
      match happen e p with
      | Some p' => run rest p'
      | None => None
      end
  end.

(** *** Closed forms

    What the loops and the member functions built on them compute, written
    without the monad; the properties below show that the member functions
    return exactly these. *)

(** One turn of the loop of [run_scheduled_task]. *)
Definition drain_one : M unit :=
  lock_guard
    (r <- records_front ;;
     on_index (CallAddIndexDelay r) (index_manager.add_index_delay r)) ;;
  records_pop_front.

(** What one turn leaves in the journal for the record [r]: the front is
    read and handed over with the mutex held, the pop happens after the
    guard's scope. *)
Definition drain_entries (r : file_record) : list (entry file_record) :=
  [Entry OnRecords true; Entry (OnStore (CallAddIndexDelay r)) true;
   Entry OnRecords false].

Definition delay_all (l : list file_record) (s : Store) : Store :=
  fold_left (fun acc r => index_manager.add_index_delay r acc) l s.

(** The object after [k] turns. *)
Definition drained (k : nat) (h : handler) : handler :=
  with_journal (journal h ++ flat_map drain_entries (firstn k (records_ h)))
    (with_records (skipn k (records_ h))
       (with_index_manager (delay_all (firstn k (records_ h)) (index_manager_ h)) h)).

(** The whole of [run_scheduled_task], in closed form. *)
Definition scheduled (h : handler) : handler :=
  match records_ h with
  | [] =>
      with_journal (journal h ++ [Entry OnRecords (mtx_ h); Entry NotifyOne (mtx_ h)]) h
  | _ :: _ =>
      let k := Nat.min 500 (List.length (records_ h)) in
      with_journal
        (journal h ++ [Entry OnRecords false; Entry OnRecords false] ++
           flat_map drain_entries (firstn k (records_ h)) ++ [Entry NotifyOne false])
        (with_records (skipn k (records_ h))
           (with_index_manager (delay_all (firstn k (records_ h)) (index_manager_ h)) h))
  end.

(** The test at the head of [eat_jobs]. *)
Definition flush_due (now_checked : Z) (h : handler) : bool :=
  (batch_size_ h <? List.length (addition_jobs_ h)) ||
  (batch_interval_ h <=? now_checked - last_addition_time_ h)%Z.

(** One turn of the loop of [eat_jobs]. *)
Definition flush_one : M unit :=
  r <- addition_jobs_front ;;
  on_index (CallAddIndex r) (index_manager.add_index r) ;;
  addition_jobs_pop.

Definition flush_entries (m : bool) (r : file_record) : list (entry file_record) :=
  [Entry OnAdditionJobs m; Entry (OnStore (CallAddIndex r)) m; Entry OnAdditionJobs m].

Definition add_all (l : list file_record) (s : Store) : Store :=
  fold_left (fun acc r => index_manager.add_index r acc) l s.

Definition flushed (k : nat) (h : handler) : handler :=
  with_journal
    (journal h ++ flat_map (flush_entries (mtx_ h)) (firstn k (addition_jobs_ h)))
    (with_addition_jobs (skipn k (addition_jobs_ h))
       (with_index_manager (add_all (firstn k (addition_jobs_ h)) (index_manager_ h)) h)).

(** How many jobs one run of [eat_jobs] flushes. *)
Definition flush_count (now_checked : Z) (h : handler) : nat :=
  if flush_due now_checked h
  then Nat.min (batch_size_ h) (List.length (addition_jobs_ h))
  else 0.

(** The index once the flushed jobs are added, before the deletion jobs
    are looked at. *)
Definition index_after_flush (now_checked : Z) (h : handler) : Store :=
  add_all (firstn (flush_count now_checked h) (addition_jobs_ h)) (index_manager_ h).

Definition deletion_entries (m ready : bool) : list (entry file_record) :=
  Entry (OnStore CallDeletionJobsReady) m ::
  (if ready then [Entry (OnStore CallProcessDeletionJobs) m] else []).

(** The whole of [eat_jobs], in closed form. *)
Definition eaten (now_checked now_stored : Z) (h : handler) : handler :=
  let k := flush_count now_checked h in
  let s1 := index_after_flush now_checked h in
  let ready := index_manager.deletion_jobs_ready s1 in
  with_journal
    (journal h ++ [Entry EatJobs (mtx_ h); Entry OnAdditionJobs (mtx_ h)] ++
       flat_map (flush_entries (mtx_ h)) (firstn k (addition_jobs_ h)) ++
       deletion_entries (mtx_ h) ready)
    (with_last_addition_time
       (if flush_due now_checked h then now_stored else last_addition_time_ h)
       (with_addition_jobs (skipn k (addition_jobs_ h))
          (with_index_manager
             (if ready then index_manager.process_deletion_jobs s1 else s1) h))).

(** *** A logic of journals

    [emits P pre post c]: started with the mutex in state [pre], the
    computation [c], when it returns, leaves the mutex in state [post],
    has only appended entries that satisfy [P] to the journal, and has not
    cleared the shutdown flag. *)
Definition emits (P : entry file_record -> Prop) {A : Type} (pre post : bool)
    (c : M A) : Prop :=
  forall (h : handler) (x : A) (h' : handler),
    mtx_ h = pre -> c h = Some (x, h') ->
    mtx_ h' = post /\
    (should_stop_ h = true -> should_stop_ h' = true) /\
    exists new : list (entry file_record),
      journal h' = journal h ++ new /\ Forall P new.

(** A computation that touches neither the mutex, nor the journal, nor
    the flag. *)
Definition quiet {A : Type} (c : M A) : Prop :=
  forall (h : handler) (x : A) (h' : handler),
    c h = Some (x, h') ->
    mtx_ h' = mtx_ h /\ should_stop_ h' = should_stop_ h /\ journal h' = journal h.

(** An action that is not a search without the fuzzy flag. *)
Definition fuzzy_if_search (a : action file_record) : Prop :=
  match a with
  | OnStore (CallSearch _ _ _ _ fuzzy) => fuzzy = true
  | _ => True
  end.

(** An action that is not the entry into [eat_jobs]. *)
Definition not_eat_jobs (a : action file_record) : Prop :=
  match a with
  | EatJobs => False
  | _ => True
  end.

(** *** The worker and the process *)

(** Where the mutex is after a move of the worker that started without
    it: held exactly when the worker is about to drain. *)
Definition held_at (pc : worker_pc) : bool :=
  match pc with Draining => true | _ => false end.

(** The value of the predicate given to [cv_.wait_for]. *)
Definition wake_condition (h : handler) : bool :=
  (batch_size_ h <? List.length (addition_jobs_ h)) ||
  index_manager.deletion_jobs_ready (index_manager_ h) ||
  should_stop_ h.

(** What evaluating it leaves in the journal (the worker holds the mutex). *)
Definition wake_entries (h : handler) : list (entry file_record) :=
  Entry OnAdditionJobs true ::
  (if batch_size_ h <? List.length (addition_jobs_ h) then []
   else Entry (OnStore CallDeletionJobsReady) true ::
        (if index_manager.deletion_jobs_ready (index_manager_ h) then []
         else [Entry OnShouldStop true])).

Definition timed_out (w : wakeup) : bool :=
  match w with TimedOut => true | Notified => false end.

(** Where a move out of [Waiting] leads. *)
Definition after_wait (w : wakeup) (h : handler) : worker_pc :=
  if should_stop_ h then Stopped
  else if wake_condition h || timed_out w then Draining
  else Waiting.

Definition stop_check (h : handler) : list (entry file_record) :=
  if wake_condition h then [Entry OnShouldStop true] else [].

(** A move out of [Waiting], in closed form: nothing but the journal and
    the mutex changes. *)
Definition woken (w : wakeup) (h : handler) : handler :=
  with_mtx (held_at (after_wait w h))
    (with_journal (journal h ++ wake_entries h ++ stop_check h) h).

(** The records a request appends to the addition queue. *)
Definition enqueued_by (r : request) : list file_record :=
  match r with
  | ReqAddIndexDelay record => [record]
  | _ => []
  end.

(** Between two events the mutex is held exactly by a worker that is about
    to drain, and a thread that was joined has left its loop. *)
Definition consistent (p : process) : Prop :=
  mtx_ (this p) = held_at (at_ (worker_ p)) /\
  (joinable (worker_ p) = false -> at_ (worker_ p) = Stopped).

(** [extends P p p']: the process [p'] is consistent, has the flag set if
    [p] had, and its journal is that of [p] followed by entries that
    satisfy [P]. *)
Definition extends (P : entry file_record -> Prop) (p p' : process) : Prop :=
  consistent p' /\
  (should_stop_ (this p) = true -> should_stop_ (this p') = true) /\
  exists new : list (entry file_record),
    journal (this p') = journal (this p) ++ new /\ Forall P new.

(** [cv_.notify_one()] calls in a journal. *)
Definition notifications (j : list (entry file_record)) : nat :=
  List.length (filter (@is_notify file_record) j).

(** The records that the requests among the events enqueue. *)
Definition enqueued (evs : list event) : list file_record :=
  flat_map (fun e => match e with ByCaller r => enqueued_by r | _ => [] end) evs.

(** *** Lock discipline *)

(** The actions that the mutex is there for: the addition queue, the
    shutdown flag, the drain, and the calls into the index other than
    [index_directory]. *)
Definition lock_covered (a : action file_record) : bool :=
  match a with
  | OnAdditionJobs | OnShouldStop | EatJobs => true
  | OnStore CallIndexDirectory => false
  | OnStore _ => true
  | OnRecords | OnMount _ | NotifyOne => false
  end.

Definition under_lock (e : entry file_record) : Prop :=
  lock_covered (act e) = true -> held e = true.

(** *** Two statements of the specification, as they are worded *)

(** "Every transition out of Waiting leads to a drain attempt": a move
    that leaves [Waiting] arrives in [Draining]. *)
Definition leaving_wait_drains : Prop :=
  forall (w : wakeup) (t1 t2 : Z) (h h' : handler) (pc : worker_pc),
    mtx_ h = false -> worker_step w t1 t2 Waiting h = Some (pc, h') ->
    pc <> Waiting -> pc = Draining.

(** "Every access to mutable shared state is serialized by the mutex":
    whatever a member function journals, but for notifications, happens
    with the mutex held. *)
Definition every_access_locked : Prop :=
  forall (r : request) (h : handler) (x : reply) (h' : handler)
         (new : list (entry file_record)),
    mtx_ h = false -> serve r h = Some (x, h') ->
    journal h' = journal h ++ new ->
    Forall (fun e => guarded e = true) new.

(** *** Frames

    [keeps f c]: the computation [c], when it returns, has left the
    observation [f] of the object as it was. *)
Definition keeps {B A : Type} (f : handler -> B) (c : M A) : Prop :=
  forall (h : handler) (x : A) (h' : handler), c h = Some (x, h') -> f h' = f h.

(** The two settings of the batching policy. *)
Definition settings (h : handler) : nat * Z := (batch_size_ h, batch_interval_ h).

(** The data members that are the handler's own: the two queues, the
    settings, the time of the last flush and the shutdown flag. *)
Definition own_members (h : handler)
  : list file_record * list file_record * nat * Z * Z * bool :=
  (records_ h, addition_jobs_ h, batch_size_ h, batch_interval_ h,
   last_addition_time_ h, should_stop_ h).

(** The statements that only ask: the calls [document_exists], [search]
    and [index_directory] on the index, [path_match_type],
    [contains_device] and [get_mount_point] on the mount manager, and a
    look at the pending records.  The calls that hand something to the
    index or refresh the mount table, the addition queue, the shutdown
    flag, a notification and a drain are not among them. *)
Definition looks (e : entry file_record) : bool :=
  match act e with
  | OnStore (CallDocumentExists _) => true
  | OnStore (CallSearch _ _ _ _ _) => true
  | OnStore CallIndexDirectory => true
  | OnMount (CallPathMatchType _ _) => true
  | OnMount (CallContainsDevice _) => true
  | OnMount (CallGetMountPoint _) => true
  | OnRecords => true
  | _ => false
  end.

(** What the worker thread does not own: the pending records, the mount
    manager, the shutdown flag and the settings. *)
Definition beyond_worker (h : handler) : list file_record * Mnt * bool * (nat * Z) :=
  (records_ h, mnt_manager_ h, should_stop_ h, settings h).

(** What the pending lane does not own: the addition queue, the time of
    the last flush, the shutdown flag, the mount manager and the settings. *)
Definition beyond_pending (h : handler) : list file_record * Z * bool * Mnt * (nat * Z) :=
  (addition_jobs_ h, last_addition_time_ h, should_stop_ h, mnt_manager_ h, settings h).

(** The records handed to [index_manager_.add_index], in the order of the
    calls. *)
Definition added_of (e : entry file_record) : option file_record :=
  match act e with
  | OnStore (CallAddIndex r) => Some r
  | _ => None
  end.

Definition added (j : list (entry file_record)) : list file_record := pick added_of j.

(** The records that went to [add_index], followed by those still queued. *)
Definition lane (h : handler) : list file_record :=
  added (journal h) ++ addition_jobs_ h.

(** The object once [terminate_processing] has set the flag under the
    lock and notified, before the join. *)
Definition stop_requested (h : handler) : handler :=
  with_journal (journal h ++ [Entry OnShouldStop true; Entry NotifyOne false])
    (with_should_stop true h).

(** The member functions that only look. *)
Definition read_only (r : request) : bool :=
  match r with
  | ReqIgnoredEvent _ _ | ReqRecordSize | ReqDeviceAvailable _
  | ReqFetchMountPointForDevice _ | ReqGetIndexDirectory | ReqSearch _ _ _ _
  | ReqHasLFT _ | ReqIndexFilesInDirectory _ => true
  | _ => false
  end.

(** The calls into the index that the worker makes. *)
Definition worker_call (c : store_call file_record) : bool :=
  match c with
  | CallAddIndex _ | CallDeletionJobsReady | CallProcessDeletionJobs => true
  | _ => false
  end.

(** The calls into the index that the scheduled task makes. *)
Definition scheduled_call (c : store_call file_record) : bool :=
  match c with
  | CallAddIndexDelay _ => true
  | _ => false
  end.

(** Whether a member function reaches for the mutex on the way it takes in
    the object [h]. *)
Definition takes_lock (r : request) (h : handler) : bool :=
  match r with
  | ReqRunScheduledTask => negb (is_nil (records_ h))
  | ReqSetIndexChangeFilter _ | ReqAddIndexDelay _ | ReqRemoveIndexDelay _
  | ReqRemovePath _ | ReqHasLFT _ => true
  | ReqSearch _ _ offset _ => negb (offset <? 0)%Z
  | ReqAddPath p =>
      match generate_file_record p with Some _ => true | None => false end
  | _ => false
  end.

(** [run_scheduled_task], called [n] times in a row. *)
Definition run_scheduled_tasks (n : nat) : M unit := for_loop n run_scheduled_task.

(** * Properties *)

#[local] Arguments Nat.min : simpl never.

(** *** Journals *)

Lemma pick_app (A B : Type) (f : A -> option B) (l1 l2 : list A) :
  pick f (l1 ++ l2) = pick f l1 ++ pick f l2.
Proof.
  induction l1 as [|x l1 IH]; simpl; [reflexivity|].
  destruct (f x); simpl; now rewrite IH.
Qed.

Lemma store_calls_app (j1 j2 : list (entry file_record)) :
  store_calls (j1 ++ j2) = store_calls j1 ++ store_calls j2.
Proof. apply pick_app. Qed.

Lemma mount_calls_app (j1 j2 : list (entry file_record)) :
  mount_calls (j1 ++ j2) = mount_calls j1 ++ mount_calls j2.
Proof. apply pick_app. Qed.

Lemma drain_cycles_app (j1 j2 : list (entry file_record)) :
  drain_cycles (j1 ++ j2) = drain_cycles j1 + drain_cycles j2.
Proof. unfold drain_cycles. now rewrite filter_app, length_app. Qed.

(** *** The monad *)

Lemma bind_some (A B : Type) (c : M A) (k : A -> M B) (h h1 : handler) (x : A) :
  c h = Some (x, h1) -> bind c k h = k x h1.
Proof. intros E. unfold bind. now rewrite E. Qed.

(** Unfolds the primitives of the monad and the containers. *)
Ltac unfold_m :=
  unfold lock_guard, lock, unlock, notify_one,
    records_empty, records_size, records_front, records_pop_front, records_insert_end,
    addition_jobs_size, addition_jobs_front, addition_jobs_pop, addition_jobs_push,
    on_index, ask_index, on_mounts, ask_mounts,
    note, modify, gets, bind, ret in *.

(** Computes the projections of an updated object. *)
Ltac proj_simpl :=
  cbn [index_manager_ mnt_manager_ records_ addition_jobs_ batch_size_
       batch_interval_ last_addition_time_ should_stop_ mtx_ journal
       with_index_manager with_mnt_manager with_records with_addition_jobs
       with_last_addition_time with_should_stop with_mtx with_journal] in *.

(** *** The scheduled drain *)

Lemma drain_loop (k : nat) :
  forall h : handler,
    mtx_ h = false -> k <= List.length (records_ h) ->
    for_loop k drain_one h = Some (tt, drained k h).
Proof.
  induction k as [|k IH]; intros h Hm Hk.
  - destruct h; unfold drained; simpl in *. now rewrite app_nil_r.
  - destruct h as [im mm rs aj bs bi la ss mx j]; simpl in *; subst mx.
    destruct rs as [|r rs]; simpl in Hk; [lia|].
    change (for_loop (S k) drain_one) with (drain_one ;; for_loop k drain_one).
    erewrite bind_some.
    2:{ unfold drain_one. unfold_m. simpl. reflexivity. }
    rewrite IH; simpl; [|reflexivity|lia].
    unfold drained; simpl. repeat rewrite <- app_assoc. reflexivity.
Qed.

Lemma run_scheduled_task_runs (h : handler) :
  mtx_ h = false -> run_scheduled_task h = Some (tt, scheduled h).
Proof.
  intros Hm. unfold run_scheduled_task, scheduled.
  destruct h as [im mm rs aj bs bi la ss mx j]; simpl in *; subst mx.
  destruct rs as [|r rs].
  - unfold_m. simpl. rewrite <- app_assoc. reflexivity.
  - set (k := Nat.min 500 (List.length (r :: rs))).
    erewrite bind_some; [|unfold_m; simpl; reflexivity].
    cbn [negb is_nil].
    erewrite bind_some.
    2:{ erewrite bind_some; [|unfold_m; simpl; reflexivity].
        apply (@drain_loop k); [reflexivity|apply Nat.le_min_r]. }
    unfold drained. unfold_m. cbn -[firstn skipn flat_map].
    repeat rewrite <- app_assoc. reflexivity.
Qed.

Lemma store_calls_drain_entries (l : list file_record) :
  store_calls (flat_map drain_entries l) = map (@CallAddIndexDelay file_record) l.
Proof. induction l as [|r l IH]; simpl; [reflexivity|]. now rewrite <- IH. Qed.

(** C1. One invocation of the scheduled drain takes exactly
    [min 500 (size of the pending buffer)] records from the front of the
    buffer, hands them to the index's delayed add one by one in insertion
    order, leaves the rest of the buffer in place, and so lowers the
    pending count by exactly that number, which is never above 500. *)
Theorem run_scheduled_task_drains (h : handler) :
  mtx_ h = false ->
  let k := Nat.min 500 (List.length (records_ h)) in
  exists h' : handler,
    run_scheduled_task h = Some (tt, h') /\
    records_ h = firstn k (records_ h) ++ records_ h' /\
    store_calls (journal h') =
      store_calls (journal h) ++ map (@CallAddIndexDelay file_record) (firstn k (records_ h)) /\
    index_manager_ h' = delay_all (firstn k (records_ h)) (index_manager_ h) /\
    List.length (firstn k (records_ h)) = k /\
    record_size h' = Some (List.length (records_ h) - k,
                           with_journal (journal h' ++ [Entry OnRecords false]) h') /\
    k <= 500 /\
    addition_jobs_ h' = addition_jobs_ h.
Proof.
  intros Hm k. exists (scheduled h).
  split; [now apply run_scheduled_task_runs|].
  assert (Hk : k <= List.length (records_ h)) by apply Nat.le_min_r.
  unfold scheduled.
  destruct h as [im mm rs aj bs bi la ss mx j]; proj_simpl; subst mx.
  destruct rs as [|r rs].
  - subst k. simpl. rewrite store_calls_app. simpl.
    repeat split; try reflexivity. apply Nat.le_min_l.
  - fold k. repeat split; proj_simpl.
    + now rewrite firstn_skipn.
    + rewrite !store_calls_app, store_calls_drain_entries. simpl.
      now rewrite app_nil_r.
    + apply firstn_length_le. exact Hk.
    + unfold record_size. unfold_m. proj_simpl.
      now rewrite length_skipn.
    + apply Nat.le_min_l.
Qed.
(** *** The worker's drain *)

Lemma flush_loop (k : nat) :
  forall h : handler,
    k <= List.length (addition_jobs_ h) ->
    for_loop k flush_one h = Some (tt, flushed k h).
Proof.
  induction k as [|k IH]; intros h Hk.
  - destruct h; unfold flushed; simpl in *. now rewrite app_nil_r.
  - destruct h as [im mm rs aj bs bi la ss mx j]; proj_simpl.
    destruct aj as [|r aj]; simpl in Hk; [lia|].
    change (for_loop (S k) flush_one) with (flush_one ;; for_loop k flush_one).
    erewrite bind_some.
    2:{ unfold flush_one. unfold_m. simpl. reflexivity. }
    rewrite IH; proj_simpl; [|lia].
    unfold flushed; simpl. repeat rewrite <- app_assoc. reflexivity.
Qed.

Lemma eat_jobs_runs (now_checked now_stored : Z) (h : handler) :
  eat_jobs now_checked now_stored h = Some (tt, eaten now_checked now_stored h).
Proof.
  unfold eat_jobs, eaten, index_after_flush, flush_count.
  fold flush_one.
  destruct h as [im mm rs aj bs bi la ss mx j].
  erewrite bind_some; [|unfold_m; reflexivity].
  erewrite bind_some; [|unfold_m; proj_simpl; reflexivity].
  erewrite bind_some; [|unfold_m; reflexivity].
  erewrite bind_some; [|unfold_m; reflexivity].
  erewrite bind_some; [|unfold_m; reflexivity].
  proj_simpl. unfold flush_due. proj_simpl.
  destruct ((bs <? List.length aj) || (bi <=? now_checked - la)%Z).
  - erewrite bind_some.
    2:{ erewrite bind_some; [|apply flush_loop; proj_simpl; apply Nat.le_min_r].
        unfold_m. reflexivity. }
    unfold flushed. proj_simpl.
    erewrite bind_some; [|unfold_m; proj_simpl; reflexivity].
    destruct (index_manager.deletion_jobs_ready
                (add_all (firstn (Nat.min bs (List.length aj)) aj) im));
      unfold_m; proj_simpl; unfold deletion_entries;
      repeat rewrite <- app_assoc; reflexivity.
  - erewrite bind_some; [|unfold_m; reflexivity].
    erewrite bind_some; [|unfold_m; proj_simpl; reflexivity].
    cbn [firstn skipn flat_map add_all fold_left].
    destruct (index_manager.deletion_jobs_ready im);
      unfold_m; proj_simpl; unfold deletion_entries;
      repeat rewrite <- app_assoc; reflexivity.
Qed.

Lemma store_calls_flush_entries (m : bool) (l : list file_record) :
  store_calls (flat_map (flush_entries m) l) = map (@CallAddIndex file_record) l.
Proof. induction l as [|r l IH]; simpl; [reflexivity|]. now rewrite <- IH. Qed.

Lemma store_calls_deletion_entries (m ready : bool) :
  store_calls (deletion_entries m ready) =
  CallDeletionJobsReady :: (if ready then [CallProcessDeletionJobs] else []).
Proof. now destruct ready. Qed.

Lemma drain_cycles_eaten (t1 t2 : Z) (h : handler) :
  drain_cycles (journal (eaten t1 t2 h)) = S (drain_cycles (journal h)).
Proof.
  unfold eaten. proj_simpl.
  rewrite !drain_cycles_app. unfold drain_cycles at 2.
  cbn [filter is_eat_jobs act List.length].
  assert (E : forall m l, drain_cycles (flat_map (flush_entries m) l) = 0).
  { intros m l. induction l as [|r l IH]; [reflexivity|exact IH]. }
  rewrite E.
  destruct (index_manager.deletion_jobs_ready _); unfold drain_cycles; simpl; lia.
Qed.

(** C2. In a drain cycle of the worker: when the addition queue is longer
    than the batch size, or the flush interval has passed since the last
    flush, exactly [min batch_size (queue size)] jobs leave the front of the
    queue, each is handed alone and in order to the index's immediate add,
    and the time of the last flush is set; otherwise queue and time stamp
    stay as they are.  In both cases the index is then asked whether
    deletion jobs are ready, and processes them exactly when it says so.  No
    cycle flushes more than [batch_size] jobs. *)
Theorem eat_jobs_cycle (now_checked now_stored : Z) (h : handler) :
  let k := Nat.min (batch_size_ h) (List.length (addition_jobs_ h)) in
  exists (h' : handler) (flushed_jobs : list file_record),
    eat_jobs now_checked now_stored h = Some (tt, h') /\
    addition_jobs_ h = flushed_jobs ++ addition_jobs_ h' /\
    (if (batch_size_ h <? List.length (addition_jobs_ h)) ||
        (batch_interval_ h <=? now_checked - last_addition_time_ h)%Z
     then List.length flushed_jobs = k /\ last_addition_time_ h' = now_stored
     else flushed_jobs = [] /\ last_addition_time_ h' = last_addition_time_ h) /\
    List.length flushed_jobs <= batch_size_ h /\
    let s1 := add_all flushed_jobs (index_manager_ h) in
    let ready := index_manager.deletion_jobs_ready s1 in
    store_calls (journal h') =
      store_calls (journal h) ++ map (@CallAddIndex file_record) flushed_jobs ++
      CallDeletionJobsReady :: (if ready then [CallProcessDeletionJobs] else []) /\
    index_manager_ h' = (if ready then index_manager.process_deletion_jobs s1 else s1) /\
    drain_cycles (journal h') = S (drain_cycles (journal h)).
Proof.
  intros k.
  exists (eaten now_checked now_stored h),
         (firstn (flush_count now_checked h) (addition_jobs_ h)).
  split; [apply eat_jobs_runs|].
  assert (D := drain_cycles_eaten now_checked now_stored h).
  unfold eaten, index_after_flush in *. proj_simpl.
  split; [now rewrite firstn_skipn|].
  split.
  { unfold flush_count, flush_due. fold k.
    destruct ((batch_size_ h <? List.length (addition_jobs_ h)) ||
              (batch_interval_ h <=? now_checked - last_addition_time_ h)%Z).
    - split; [|reflexivity]. apply firstn_length_le. apply Nat.le_min_r.
    - split; reflexivity. }
  split.
  { rewrite length_firstn. unfold flush_count.
    destruct (flush_due now_checked h).
    - etransitivity; [apply Nat.le_min_l|apply Nat.le_min_l].
    - apply Nat.le_0_l. }
  cbv zeta. repeat split.
  - rewrite !store_calls_app, store_calls_flush_entries, store_calls_deletion_entries.
    reflexivity.
  - exact D.
Qed.
(** *** The suffix test *)

Lemma substring_whole (s : string) : substring 0 (String.length s) s = s.
Proof. induction s as [|c s IH]; simpl; [reflexivity|now rewrite IH]. Qed.

Lemma substring_past_prefix (p t : string) :
  substring (String.length p) (String.length t) (p ++ t)%string = t.
Proof. induction p as [|c p IH]; simpl; [apply substring_whole|exact IH]. Qed.

Lemma split_at (s : string) :
  forall k : nat,
    k <= String.length s ->
    s = (substring 0 k s ++ substring k (String.length s - k) s)%string.
Proof.
  induction s as [|c s IH]; intros k Hk; simpl in *.
  - destruct k; [reflexivity|lia].
  - destruct k as [|k]; simpl.
    + now rewrite substring_whole.
    + f_equal. apply IH. lia.
Qed.

Lemma length_append (p t : string) :
  String.length (p ++ t)%string = String.length p + String.length t.
Proof. induction p as [|c p IH]; simpl; [reflexivity|now rewrite IH]. Qed.

(** [ends_with] is the suffix relation on strings. *)
Lemma ends_with_suffix (s suffix : string) :
  ends_with s suffix = true <-> exists stem : string, s = (stem ++ suffix)%string.
Proof.
  unfold ends_with. rewrite andb_true_iff, Nat.leb_le, String.eqb_eq. split.
  - intros [Hle Heq].
    exists (substring 0 (String.length s - String.length suffix) s).
    pose proof (@split_at s (String.length s - String.length suffix)) as H.
    replace (String.length s - (String.length s - String.length suffix))
      with (String.length suffix) in H by lia.
    rewrite Heq in H. apply H. lia.
  - intros [stem ->]. rewrite length_append. split; [lia|].
    replace (String.length stem + String.length suffix - String.length suffix)
      with (String.length stem) by lia.
    apply substring_past_prefix.
Qed.

(** *** The ignored-event filter *)

(** C3. The filter answers [true] for every path that ends with
    ".longname", whatever the mounts and the preceding decision; otherwise,
    when the preceding event was not ignored, it answers whether the mount
    covering the path has the type "fuse.dlnfs"; otherwise it answers
    [false].  The mount manager is consulted exactly in the second case;
    nothing else of the object changes. *)
Theorem ignored_event_decides (path : string) (ignored : bool) (h : handler) :
  let suffixed := ends_with path ".longname" in
  let by_mount := mount_manager.path_match_type path "fuse.dlnfs" (mnt_manager_ h) in
  let asked := Entry (OnMount (CallPathMatchType path "fuse.dlnfs")) (mtx_ h) in
  (suffixed = true <-> exists stem : string, path = (stem ++ ".longname")%string) /\
  ignored_event path ignored h =
    Some (if suffixed then true else if ignored then false else by_mount,
          if suffixed then h else if ignored then h
          else with_journal (journal h ++ [asked]) h).
Proof.
  cbv zeta. split; [apply ends_with_suffix|].
  unfold ignored_event.
  destruct (ends_with path ".longname"); [reflexivity|].
  destruct ignored; [reflexivity|]. cbn [negb].
  unfold_m. proj_simpl.
  now destruct (mount_manager.path_match_type path "fuse.dlnfs" (mnt_manager_ h)).
Qed.

(** *** Queries *)

(** C6. A query with a negative offset returns the empty sequence and
    leaves the object as it is, the index not being called; a query with
    any other offset takes the lock and returns what the index's search
    returns for the same arguments. *)
Theorem search_checks_offset (path keywords : string) (offset max_count : Z)
    (h : handler) :
  ((offset < 0)%Z -> search path keywords offset max_count h = Some ([], h)) /\
  ((0 <= offset)%Z -> mtx_ h = false ->
   search path keywords offset max_count h =
     Some (index_manager.search path keywords offset max_count true (index_manager_ h),
           with_journal
             (journal h ++
                [Entry (OnStore (CallSearch path keywords offset max_count true)) true])
             h)).
Proof.
  unfold search. split.
  - intros Ho. apply Z.ltb_lt in Ho. now rewrite Ho.
  - intros Ho Hm. apply Z.ltb_ge in Ho. rewrite Ho.
    destruct h as [im mm rs aj bs bi la ss mx j]; proj_simpl; subst mx.
    unfold_m. reflexivity.
Qed.
(** *** Rules of the logic of journals *)
Section Emits.
Variable P : entry file_record -> Prop.

Lemma emits_quiet (A : Type) (m : bool) (c : M A) : quiet c -> emits P m m c.
Proof.
  intros Q h x h' Hm E. destruct (Q h x h' E) as (Q1 & Q2 & Q3).
  repeat split; [congruence|congruence|].
  exists []. rewrite app_nil_r. split; [assumption|constructor].
Qed.

Lemma emits_ret (A : Type) (m : bool) (x : A) : emits P m m (ret x).
Proof. apply emits_quiet. intros h y h' E. inversion E. auto. Qed.

Lemma emits_gets (A : Type) (m : bool) (f : handler -> A) : emits P m m (gets f).
Proof. apply emits_quiet. intros h y h' E. inversion E. auto. Qed.

Lemma emits_bind (A B : Type) (pre mid post : bool) (c : M A) (k : A -> M B) :
  emits P pre mid c -> (forall x : A, emits P mid post (k x)) ->
  emits P pre post (bind c k).
Proof.
  intros Hc Hk h y h' Hm E. unfold bind in E.
  destruct (c h) as [[x h1]|] eqn:E1; [|discriminate].
  destruct (Hc h x h1 Hm E1) as (M1 & S1 & n1 & J1 & F1).
  destruct (Hk x h1 y h' M1 E) as (M2 & S2 & n2 & J2 & F2).
  repeat split; [assumption|auto|].
  exists (n1 ++ n2). rewrite J2, J1, app_assoc. split; [reflexivity|].
  apply Forall_app. now split.
Qed.

Lemma emits_note (m : bool) (a : action file_record) :
  P (Entry a m) -> emits P m m (note a).
Proof.
  intros HP h x h' Hm E. unfold note, modify in E. inversion E; subst. proj_simpl.
  split; [auto|split; [auto|]].
  exists [Entry a (mtx_ h)]. split; [reflexivity|].
  constructor; [assumption|constructor].
Qed.

Lemma emits_lock (m : bool) : emits P m true lock.
Proof.
  intros h x h' Hm E. unfold lock in E. destruct (mtx_ h); [discriminate|].
  inversion E; subst. proj_simpl. split; [auto|split; [auto|]].
  exists []. rewrite app_nil_r. split; [reflexivity|constructor].
Qed.

Lemma emits_unlock (m : bool) : emits P m false unlock.
Proof.
  intros h x h' Hm E. unfold unlock, modify in E. inversion E; subst. proj_simpl.
  split; [auto|split; [auto|]].
  exists []. rewrite app_nil_r. split; [reflexivity|constructor].
Qed.

(** From a held mutex a guard never returns. *)
Lemma emits_lock_guard_held (A : Type) (post : bool) (body : M A) :
  emits P true post (lock_guard body).
Proof.
  intros h x h' Hm E. unfold lock_guard, bind, lock in E.
  rewrite Hm in E. discriminate.
Qed.

Lemma emits_lock_guard (A : Type) (body : M A) :
  emits P true true body -> emits P false false (lock_guard body).
Proof.
  intros Hb. unfold lock_guard.
  eapply emits_bind; [apply emits_lock|]. intros _.
  eapply emits_bind; [apply Hb|]. intros x.
  eapply emits_bind; [apply emits_unlock|]. intros _.
  apply emits_ret.
Qed.

(** With the mutex in either state, a guard ends with the mutex in the
    state it began with (from a held mutex it does not end). *)
Lemma emits_guard (A : Type) (m : bool) (body : M A) :
  emits P true true body -> emits P m m (lock_guard body).
Proof.
  destruct m; [intros _; apply emits_lock_guard_held|apply emits_lock_guard].
Qed.

Lemma emits_for_loop (m : bool) (body : M unit) (n : nat) :
  emits P m m body -> emits P m m (for_loop n body).
Proof.
  intros Hb. induction n as [|n IH]; simpl; [apply emits_ret|].
  eapply emits_bind; [apply Hb|]. intros _. exact IH.
Qed.

Lemma emits_set_flag (m : bool) : emits P m m (modify (with_should_stop true)).
Proof.
  intros h x h' Hm E. unfold modify in E. inversion E; subst. proj_simpl.
  split; [auto|split; [auto|]].
  exists []. rewrite app_nil_r. split; [reflexivity|constructor].
Qed.

Lemma quiet_modify (f : handler -> handler) :
  (forall h, mtx_ (f h) = mtx_ h /\ should_stop_ (f h) = should_stop_ h /\
             journal (f h) = journal h) ->
  quiet (modify f).
Proof. intros Hf h x h' E. unfold modify in E. inversion E; subst. apply Hf. Qed.

Lemma emits_modify (m : bool) (f : handler -> handler) :
  (forall h, mtx_ (f h) = mtx_ h /\ should_stop_ (f h) = should_stop_ h /\
             journal (f h) = journal h) ->
  emits P m m (modify f).
Proof. intros Hf. apply emits_quiet, quiet_modify, Hf. Qed.

(** The containers. *)

Lemma emits_records_empty (m : bool) :
  P (Entry OnRecords m) -> emits P m m records_empty.
Proof.
  intros HP. unfold records_empty.
  eapply emits_bind; [apply emits_note, HP|]. intros _. apply emits_gets.
Qed.

Lemma emits_records_size (m : bool) :
  P (Entry OnRecords m) -> emits P m m records_size.
Proof.
  intros HP. unfold records_size.
  eapply emits_bind; [apply emits_note, HP|]. intros _. apply emits_gets.
Qed.

Lemma emits_records_front (m : bool) :
  P (Entry OnRecords m) -> emits P m m records_front.
Proof.
  intros HP. unfold records_front.
  eapply emits_bind; [apply emits_note, HP|]. intros _.
  apply emits_quiet. intros h x h' E.
  destruct (records_ h); [discriminate|]. inversion E; subst. auto.
Qed.

Lemma emits_records_pop_front (m : bool) :
  P (Entry OnRecords m) -> emits P m m records_pop_front.
Proof.
  intros HP. unfold records_pop_front.
  eapply emits_bind; [apply emits_note, HP|]. intros _.
  apply emits_quiet. intros h x h' E.
  destruct (records_ h); [discriminate|]. inversion E; subst. auto.
Qed.

Lemma emits_records_insert_end (m : bool) (l : list file_record) :
  P (Entry OnRecords m) -> emits P m m (records_insert_end l).
Proof.
  intros HP. unfold records_insert_end.
  eapply emits_bind; [apply emits_note, HP|]. intros _.
  apply emits_modify. auto.
Qed.

Lemma emits_addition_jobs_size (m : bool) :
  P (Entry OnAdditionJobs m) -> emits P m m addition_jobs_size.
Proof.
  intros HP. unfold addition_jobs_size.
  eapply emits_bind; [apply emits_note, HP|]. intros _. apply emits_gets.
Qed.

Lemma emits_addition_jobs_front (m : bool) :
  P (Entry OnAdditionJobs m) -> emits P m m addition_jobs_front.
Proof.
  intros HP. unfold addition_jobs_front.
  eapply emits_bind; [apply emits_note, HP|]. intros _.
  apply emits_quiet. intros h x h' E.
  destruct (addition_jobs_ h); [discriminate|]. inversion E; subst. auto.
Qed.

Lemma emits_addition_jobs_pop (m : bool) :
  P (Entry OnAdditionJobs m) -> emits P m m addition_jobs_pop.
Proof.
  intros HP. unfold addition_jobs_pop.
  eapply emits_bind; [apply emits_note, HP|]. intros _.
  apply emits_quiet. intros h x h' E.
  destruct (addition_jobs_ h); [discriminate|]. inversion E; subst. auto.
Qed.

Lemma emits_addition_jobs_push (m : bool) (r : file_record) :
  P (Entry OnAdditionJobs m) -> emits P m m (addition_jobs_push r).
Proof.
  intros HP. unfold addition_jobs_push.
  eapply emits_bind; [apply emits_note, HP|]. intros _.
  apply emits_modify. auto.
Qed.

(** The collaborators. *)

Lemma emits_on_index (m : bool) (c : store_call file_record) (f : Store -> Store) :
  P (Entry (OnStore c) m) -> emits P m m (on_index c f).
Proof.
  intros HP. unfold on_index.
  eapply emits_bind; [apply emits_note, HP|]. intros _.
  apply emits_modify. auto.
Qed.

Lemma emits_ask_index (A : Type) (m : bool) (c : store_call file_record)
    (f : Store -> A) :
  P (Entry (OnStore c) m) -> emits P m m (ask_index c f).
Proof.
  intros HP. unfold ask_index.
  eapply emits_bind; [apply emits_note, HP|]. intros _. apply emits_gets.
Qed.

Lemma emits_on_mounts (m : bool) (c : mount_call) (f : Mnt -> Mnt) :
  P (Entry (OnMount c) m) -> emits P m m (on_mounts c f).
Proof.
  intros HP. unfold on_mounts.
  eapply emits_bind; [apply emits_note, HP|]. intros _.
  apply emits_modify. auto.
Qed.

Lemma emits_ask_mounts (A : Type) (m : bool) (c : mount_call) (f : Mnt -> A) :
  P (Entry (OnMount c) m) -> emits P m m (ask_mounts c f).
Proof.
  intros HP. unfold ask_mounts.
  eapply emits_bind; [apply emits_note, HP|]. intros _. apply emits_gets.
Qed.

End Emits.
(** Walks through a member function, rule by rule; what is left are the
    conditions on the journalled actions. *)
Ltac emits_go :=
  lazymatch goal with
  | |- emits _ _ _ (bind _ _) => eapply emits_bind; [emits_go | intros ?; emits_go]
  | |- emits _ _ _ (if ?b then _ else _) => destruct b; emits_go
  | |- emits _ _ _ (match ?x with _ => _ end) => destruct x; emits_go
  | |- emits _ _ _ (lock_guard _) => apply emits_guard; emits_go
  | |- emits _ _ _ (for_loop _ _) => apply emits_for_loop; emits_go
  | |- emits _ _ _ (ret _) => apply emits_ret
  | |- emits _ _ _ (gets _) => apply emits_gets
  | |- emits _ _ _ notify_one => apply emits_note
  | |- emits _ _ _ (note _) => apply emits_note
  | |- emits _ _ _ unlock => apply emits_unlock
  | |- emits _ _ _ (modify (with_should_stop true)) => apply emits_set_flag
  | |- emits _ _ _ (modify _) => apply emits_modify; auto
  | |- emits _ _ _ records_empty => apply emits_records_empty
  | |- emits _ _ _ records_size => apply emits_records_size
  | |- emits _ _ _ records_front => apply emits_records_front
  | |- emits _ _ _ records_pop_front => apply emits_records_pop_front
  | |- emits _ _ _ (records_insert_end _) => apply emits_records_insert_end
  | |- emits _ _ _ addition_jobs_size => apply emits_addition_jobs_size
  | |- emits _ _ _ addition_jobs_front => apply emits_addition_jobs_front
  | |- emits _ _ _ addition_jobs_pop => apply emits_addition_jobs_pop
  | |- emits _ _ _ (addition_jobs_push _) => apply emits_addition_jobs_push
  | |- emits _ _ _ (on_index _ _) => apply emits_on_index
  | |- emits _ _ _ (ask_index _ _) => apply emits_ask_index
  | |- emits _ _ _ (on_mounts _ _) => apply emits_on_mounts
  | |- emits _ _ _ (ask_mounts _ _) => apply emits_ask_mounts
  | |- _ => idtac
  end.

Ltac unfold_members :=
  unfold serve, run_scheduled_task, ignored_event, insert_pending_records, record_size,
    refresh_mount_status, device_available, fetch_mount_point_for_device,
    get_index_directory, set_index_change_filter, add_index_delay, remove_index_delay,
    search, removePath, hasLFT, addPath, index_files_in_directory, request_stop,
    eat_jobs, wake_predicate, wait_for;
  cbv zeta.

(** Every member function of the public surface, from either state of the
    mutex: it returns the mutex as it found it, never clears the flag,
    never enters [eat_jobs] and never searches without the fuzzy flag. *)
Lemma serve_emits (P : entry file_record -> Prop) (m : bool) (r : request) :
  (forall a b, fuzzy_if_search a -> not_eat_jobs a -> P (Entry a b)) ->
  emits P m m (serve r).
Proof.
  intros HP. destruct r; unfold_members; emits_go; apply HP; exact I || reflexivity.
Qed.

Lemma request_stop_emits (P : entry file_record -> Prop) (m : bool) :
  (forall a b, fuzzy_if_search a -> not_eat_jobs a -> P (Entry a b)) ->
  emits P m m request_stop.
Proof.
  intros HP. unfold_members; emits_go; apply HP; exact I || reflexivity.
Qed.

Lemma eat_jobs_emits (P : entry file_record -> Prop) (m : bool) (t1 t2 : Z) :
  (forall a, fuzzy_if_search a -> P (Entry a m)) ->
  emits P m m (eat_jobs t1 t2).
Proof.
  intros HP. unfold_members; emits_go; apply HP; exact I || reflexivity.
Qed.

(** A move of the worker that returns [pc'] behaves like a computation
    that ends with the mutex in state [held_at pc']. *)
Lemma worker_step_emits (P : entry file_record -> Prop) (w : wakeup) (t1 t2 : Z)
    (pc : worker_pc) (h h' : handler) (pc' : worker_pc) :
  (forall a, fuzzy_if_search a -> P (Entry a true)) ->
  mtx_ h = held_at pc ->
  worker_step w t1 t2 pc h = Some (pc', h') ->
  mtx_ h' = held_at pc' /\
  (should_stop_ h = true -> should_stop_ h' = true) /\
  exists new : list (entry file_record),
    journal h' = journal h ++ new /\ Forall P new.
Proof.
  intros HP Hm E.
  assert (Hw : emits P true true wake_predicate).
  { unfold_members; emits_go; apply HP; exact I. }
  assert (Hn : emits P true true (note OnShouldStop)).
  { apply emits_note, HP. exact I. }
  destruct pc; cbn [worker_step held_at] in *.
  - unfold bind at 1 in E.
    destruct (lock h) as [[[] h1]|] eqn:E1; [|discriminate].
    destruct (emits_lock P (m:=false) h Hm E1) as (M1 & S1 & n1 & J1 & F1).
    unfold wait_for in E. unfold bind at 1 2 in E.
    destruct (wake_predicate h1) as [[p h2]|] eqn:E2; [|discriminate].
    destruct (Hw h1 p h2 M1 E2) as (M2 & S2 & n2 & J2 & F2).
    assert (J : journal h2 = journal h ++ (n1 ++ n2)).
    { now rewrite J2, J1, app_assoc. }
    assert (F : Forall P (n1 ++ n2)) by (apply Forall_app; now split).
    destruct p; cbn [ret] in E.
    + unfold bind at 1 in E.
      destruct (note OnShouldStop h2) as [[[] h3]|] eqn:E3; [|discriminate].
      destruct (Hn h2 tt h3 M2 E3) as (M3 & S3 & n3 & J3 & F3).
      unfold bind, gets, unlock, modify, ret in E.
      destruct (should_stop_ h3) eqn:Ess; inversion E; subst; proj_simpl.
      * split; [reflexivity|]. split; [auto|].
        exists (n1 ++ n2 ++ n3). rewrite J3, J2, J1, <- !app_assoc.
        split; [reflexivity|]. repeat (apply Forall_app; split); assumption.
      * split; [exact M3|]. split; [intuition congruence|].
        exists (n1 ++ n2 ++ n3). rewrite J3, J2, J1, <- !app_assoc.
        split; [reflexivity|]. repeat (apply Forall_app; split); assumption.
    + destruct w; unfold bind, unlock, modify, ret in E; inversion E; subst; proj_simpl.
      * split; [reflexivity|]. split; [auto|]. now exists (n1 ++ n2).
      * split; [assumption|]. split; [auto|]. now exists (n1 ++ n2).
  - assert (He : emits P true false (eat_jobs t1 t2 ;; unlock ;; ret Waiting)).
    { eapply emits_bind; [apply eat_jobs_emits, HP|]. intros _.
      eapply emits_bind; [apply emits_unlock|]. intros _. apply emits_ret. }
    assert (Hpc : pc' = Waiting).
    { unfold bind in E. rewrite eat_jobs_runs in E.
      unfold unlock, modify, ret in E. now inversion E. }
    subst pc'. exact (He h Waiting h' Hm E).
  - inversion E; subst. split; [assumption|]. split; [auto|].
    exists []. rewrite app_nil_r. split; [reflexivity|constructor].
Qed.
(** *** Single-path operations *)

Lemma hasLFT_runs (path : string) (h : handler) :
  mtx_ h = false ->
  hasLFT path h =
    Some (index_manager.document_exists path (index_manager_ h),
          with_journal (journal h ++ [Entry (OnStore (CallDocumentExists path)) true]) h).
Proof.
  intros Hm. destruct h as [im mm rs aj bs bi la ss mx j]; proj_simpl; subst mx.
  unfold hasLFT. unfold_m. reflexivity.
Qed.

Lemma removePath_runs (fullPath : string) (h : handler) :
  mtx_ h = false ->
  let s1 := index_manager.remove_index fullPath (index_manager_ h) in
  removePath fullPath h =
    Some (negb (index_manager.document_exists fullPath s1),
          with_journal
            (journal h ++ [Entry (OnStore (CallRemoveIndex fullPath)) true;
                           Entry (OnStore (CallDocumentExists fullPath)) true])
            (with_index_manager s1 h)).
Proof.
  intros Hm. destruct h as [im mm rs aj bs bi la ss mx j]; proj_simpl; subst mx.
  unfold removePath. unfold_m. proj_simpl. rewrite <- app_assoc. reflexivity.
Qed.

Lemma addPath_runs (fullPath : string) (record : file_record) (h : handler) :
  mtx_ h = false ->
  generate_file_record fullPath = Some record ->
  let s1 := index_manager.add_index_delay record (index_manager_ h) in
  addPath fullPath h =
    Some (index_manager.document_exists fullPath s1,
          with_journal
            (journal h ++ [Entry (OnStore (CallAddIndexDelay record)) true;
                           Entry (OnStore (CallDocumentExists fullPath)) true])
            (with_index_manager s1 h)).
Proof.
  intros Hm Hg. destruct h as [im mm rs aj bs bi la ss mx j]; proj_simpl; subst mx.
  unfold addPath. cbv zeta. rewrite Hg. unfold_m. proj_simpl.
  rewrite <- app_assoc. reflexivity.
Qed.

(** Whatever the index: when no record can be generated for the path,
    [addPath] returns [false] and leaves the whole object, the index
    included, as it was; when a record is generated, [addPath] hands it to
    the index's delayed add and returns what the index then answers to
    [document_exists] for the path, which [hasLFT] asked next answers too. *)
Lemma addPath_outcome (fullPath : string) (h : handler) :
  mtx_ h = false ->
  match generate_file_record fullPath with
  | None => addPath fullPath h = Some (false, h)
  | Some record =>
      let s1 := index_manager.add_index_delay record (index_manager_ h) in
      let answer := index_manager.document_exists fullPath s1 in
      exists h' h'' : handler,
        addPath fullPath h = Some (answer, h') /\
        index_manager_ h' = s1 /\
        store_calls (journal h') =
          store_calls (journal h) ++
          [CallAddIndexDelay record; CallDocumentExists fullPath] /\
        hasLFT fullPath h' = Some (answer, h'')
  end.
Proof.
  intros Hm. destruct (generate_file_record fullPath) as [record|] eqn:Hg.
  - cbv zeta. eexists. eexists.
    split; [now apply addPath_runs|]. proj_simpl.
    split; [reflexivity|].
    split; [now rewrite store_calls_app|].
    now rewrite hasLFT_runs.
  - unfold addPath. cbv zeta. now rewrite Hg.
Qed.
(** *** The worker's loop *)

Lemma wake_predicate_runs (h : handler) :
  mtx_ h = true ->
  wake_predicate h =
    Some (wake_condition h, with_journal (journal h ++ wake_entries h) h).
Proof.
  intros Hm. destruct h as [im mm rs aj bs bi la ss mx j]; proj_simpl; subst mx.
  unfold wake_predicate, wake_condition, wake_entries. proj_simpl.
  erewrite bind_some; [|unfold_m; proj_simpl; reflexivity].
  erewrite bind_some; [|unfold_m; proj_simpl; reflexivity].
  proj_simpl. destruct (bs <? List.length aj); [reflexivity|].
  erewrite bind_some; [|unfold_m; proj_simpl; reflexivity].
  proj_simpl. destruct (index_manager.deletion_jobs_ready im).
  - unfold_m. rewrite <- app_assoc. reflexivity.
  - unfold_m. proj_simpl. repeat rewrite <- app_assoc. reflexivity.
Qed.

Lemma worker_step_waiting (w : wakeup) (t1 t2 : Z) (h : handler) :
  mtx_ h = false ->
  worker_step w t1 t2 Waiting h = Some (after_wait w h, woken w h).
Proof.
  intros Hm. destruct h as [im mm rs aj bs bi la ss mx j]; proj_simpl; subst mx.
  cbn [worker_step]. unfold wait_for.
  erewrite bind_some; [|reflexivity].
  unfold bind at 1 2. rewrite wake_predicate_runs by reflexivity.
  unfold woken, after_wait, stop_check, wake_entries, wake_condition. proj_simpl.
  destruct (bs <? List.length aj);
    [|destruct (index_manager.deletion_jobs_ready im)];
    destruct ss; destruct w;
    cbn [orb timed_out held_at]; unfold_m; proj_simpl;
    repeat rewrite <- app_assoc; cbn [app]; reflexivity.
Qed.

Lemma worker_step_draining (w : wakeup) (t1 t2 : Z) (h : handler) :
  worker_step w t1 t2 Draining h = Some (Waiting, with_mtx false (eaten t1 t2 h)).
Proof.
  cbn [worker_step]. erewrite bind_some; [|apply eat_jobs_runs]. reflexivity.
Qed.

Lemma drain_cycles_quiet (j new : list (entry file_record)) :
  Forall (fun e => not_eat_jobs (act e)) new ->
  drain_cycles (j ++ new) = drain_cycles j.
Proof.
  intros F. rewrite drain_cycles_app.
  assert (E : drain_cycles new = 0).
  { induction F as [|e l He _ IH]; [reflexivity|].
    unfold drain_cycles in *. cbn [filter]. unfold is_eat_jobs at 1.
    destruct (act e); try exact IH. destruct He. }
  rewrite E. apply Nat.add_0_r.
Qed.

Lemma drain_cycles_woken (w : wakeup) (h : handler) :
  drain_cycles (journal (woken w h)) = drain_cycles (journal h).
Proof.
  unfold woken. proj_simpl. apply drain_cycles_quiet.
  unfold wake_entries, stop_check.
  repeat match goal with |- context [if ?b then _ else _] => destruct b end;
    repeat constructor.
Qed.

(** Out of its loop, the worker stays out. *)
Lemma worker_loop_stopped (sched : list tick) (h : handler) :
  worker_loop sched Stopped h = Some (Stopped, h).
Proof.
  induction sched as [|[[w t1] t2] rest IH]; [reflexivity|].
  cbn [worker_loop worker_move worker_step]. unfold bind, ret. exact IH.
Qed.

(** With the flag set, the first move of a waiting worker is its last. *)
Lemma worker_loop_stop_requested (w : wakeup) (t1 t2 : Z) (rest : list tick)
    (h : handler) :
  mtx_ h = false -> should_stop_ h = true ->
  worker_loop ((w, t1, t2) :: rest) Waiting h = Some (Stopped, woken w h).
Proof.
  intros Hm Hs. cbn [worker_loop worker_move].
  erewrite bind_some; [|now apply worker_step_waiting].
  unfold after_wait. rewrite Hs. apply worker_loop_stopped.
Qed.
(** C8 (amended). A move of the worker out of [Waiting] depends on the
    shutdown flag first.  With the flag set the worker goes straight to
    [Stopped]: the mutex is released, and neither the queue nor the index
    is touched, so no drain is attempted.  With the flag clear, a true wake
    condition as well as an elapsed timeout lead to [Draining], from where
    the next move runs [eat_jobs] once and returns to [Waiting]; a wake-up
    with a false condition and time left keeps the worker in [Waiting]. *)
Theorem worker_leaves_waiting (w : wakeup) (t1 t2 : Z) (h : handler) :
  mtx_ h = false ->
  exists h1 : handler,
    worker_step w t1 t2 Waiting h = Some (after_wait w h, h1) /\
    index_manager_ h1 = index_manager_ h /\
    addition_jobs_ h1 = addition_jobs_ h /\
    drain_cycles (journal h1) = drain_cycles (journal h) /\
    match after_wait w h with
    | Stopped => should_stop_ h = true /\ mtx_ h1 = false
    | Draining =>
        should_stop_ h = false /\
        (wake_condition h = true \/ w = TimedOut) /\
        forall (w' : wakeup) (t1' t2' : Z),
        exists h2 : handler,
          worker_step w' t1' t2' Draining h1 = Some (Waiting, h2) /\
          h2 = with_mtx false (eaten t1' t2' h1) /\
          drain_cycles (journal h2) = S (drain_cycles (journal h))
    | Waiting =>
        should_stop_ h = false /\ wake_condition h = false /\ w = Notified /\
        mtx_ h1 = false
    end.
Proof.
  intros Hm. exists (woken w h).
  split; [now apply worker_step_waiting|].
  split; [reflexivity|]. split; [reflexivity|].
  split; [apply drain_cycles_woken|].
  unfold after_wait.
  destruct (should_stop_ h) eqn:Hs.
  - split; [reflexivity|]. unfold woken, after_wait. now rewrite Hs.
  - destruct (wake_condition h) eqn:Hw; [|destruct w]; cbn [orb timed_out].
    + split; [reflexivity|]. split; [now left|]. intros w' t1' t2'.
      eexists. split; [apply worker_step_draining|]. split; [reflexivity|].
      proj_simpl. now rewrite drain_cycles_eaten, drain_cycles_woken.
    + repeat split. unfold woken, after_wait. now rewrite Hs, Hw.
    + split; [reflexivity|]. split; [now right|]. intros w' t1' t2'.
      eexists. split; [apply worker_step_draining|]. split; [reflexivity|].
      proj_simpl. now rewrite drain_cycles_eaten, drain_cycles_woken.
Qed.

(** *** Every member function returns *)

Lemma request_stop_runs (h : handler) :
  mtx_ h = false ->
  request_stop h =
    Some (tt, with_journal
                (journal h ++ [Entry OnShouldStop true; Entry NotifyOne false])
                (with_should_stop true h)).
Proof.
  intros Hm. destruct h as [im mm rs aj bs bi la ss mx j]; proj_simpl; subst mx.
  unfold request_stop. unfold_m. proj_simpl. rewrite <- app_assoc. reflexivity.
Qed.

Ltac finish :=
  eexists; eexists; split; [reflexivity|proj_simpl; reflexivity].

(** Called with the mutex free, a member function of the public surface
    returns; of the addition queue it changes nothing but its tail. *)
Lemma serve_returns (r : request) (h : handler) :
  mtx_ h = false ->
  exists (x : reply) (h' : handler),
    serve r h = Some (x, h') /\
    addition_jobs_ h' = addition_jobs_ h ++ enqueued_by r.
Proof.
  intros Hm. destruct r; cbn [serve enqueued_by]; try rewrite app_nil_r.
  - erewrite bind_some; [|now apply run_scheduled_task_runs].
    eexists. eexists. split; [reflexivity|].
    unfold scheduled. destruct (records_ h); reflexivity.
  - unfold ignored_event.
    destruct (ends_with path ".longname"); [finish|].
    destruct ignored; [finish|]. cbn [negb]. unfold_m. proj_simpl.
    destruct (mount_manager.path_match_type path "fuse.dlnfs" (mnt_manager_ h)); finish.
  - unfold insert_pending_records. unfold_m. finish.
  - unfold record_size. unfold_m. finish.
  - unfold refresh_mount_status. unfold_m. finish.
  - unfold device_available. unfold_m. finish.
  - unfold fetch_mount_point_for_device. unfold_m. finish.
  - unfold get_index_directory. unfold_m. finish.
  - unfold set_index_change_filter. unfold_m. rewrite Hm. finish.
  - unfold add_index_delay. unfold_m. rewrite Hm. proj_simpl.
    destruct (batch_size_ h <? List.length (addition_jobs_ h ++ [record])); finish.
  - unfold remove_index_delay. unfold_m. rewrite Hm. proj_simpl.
    destruct (index_manager.deletion_jobs_ready
                (index_manager.remove_index_delay term (index_manager_ h))); finish.
  - unfold search. destruct (offset <? 0)%Z; unfold_m; [finish|].
    rewrite Hm. finish.
  - erewrite bind_some; [|now apply removePath_runs]. finish.
  - erewrite bind_some; [|now apply hasLFT_runs]. finish.
  - destruct (generate_file_record fullPath) as [record|] eqn:Hg.
    + erewrite bind_some; [|apply addPath_runs; [exact Hm|exact Hg]]. finish.
    + unfold addPath. cbv zeta. rewrite Hg. unfold_m. finish.
  - unfold index_files_in_directory. unfold_m. finish.
Qed.
(** *** The process *)

Lemma construct_consistent (index : Store) (mounts : Mnt) (interval last : Z) :
  consistent (construct index mounts interval last).
Proof. split; [reflexivity|discriminate]. Qed.

(** What an event may add to a journal, for a property [P] of entries
    that every action other than a search without the fuzzy flag has. *)
Section Events.
Variable P : entry file_record -> Prop.
Hypothesis P_holds : forall a b, fuzzy_if_search a -> P (Entry a b).

Lemma extends_refl (p : process) : consistent p -> extends P p p.
Proof.
  intros C. split; [assumption|]. split; [auto|].
  exists []. rewrite app_nil_r. split; [reflexivity|constructor].
Qed.

Lemma extends_trans (p1 p2 p3 : process) :
  extends P p1 p2 -> extends P p2 p3 -> extends P p1 p3.
Proof.
  intros (_ & S1 & n1 & J1 & F1) (C & S2 & n2 & J2 & F2).
  split; [assumption|]. split; [auto|].
  exists (n1 ++ n2). rewrite J2, J1, app_assoc. split; [reflexivity|].
  apply Forall_app. now split.
Qed.

Lemma worker_run_extends (t : tick) (p p' : process) :
  consistent p -> worker_run t p = Some p' -> extends P p p'.
Proof.
  intros [Cm Cj] E. unfold worker_run in E. destruct t as [[w t1] t2].
  cbn [worker_move] in E.
  destruct (worker_step w t1 t2 (at_ (worker_ p)) (this p)) as [[pc h]|] eqn:Es;
    [|discriminate].
  inversion E; subst p'; clear E.
  destruct (@worker_step_emits P w t1 t2 _ _ _ _ (fun a F => P_holds a true F) Cm Es)
    as (M & S & new & J & F).
  split; [|split; [exact S|now exists new]].
  split; [exact M|]. cbn [worker_ this joinable at_]. intros Hj.
  rewrite (Cj Hj) in Es. cbn [worker_step ret] in Es. now inversion Es.
Qed.

Lemma join_extends (sched : list tick) :
  forall p p' : process,
    consistent p -> join sched p = Some p' ->
    extends P p p' /\ worker_ p' = Thread Stopped false.
Proof.
  induction sched as [|t rest IH]; intros p p' C E; cbn [join] in E.
  - destruct (at_ (worker_ p)) eqn:Hat; try discriminate.
    inversion E; subst p'. split; [|reflexivity].
    split; [|split; [auto|]].
    + split; [|reflexivity]. cbn [this worker_ at_]. destruct C as [Cm _].
      now rewrite Cm, Hat.
    + exists []. rewrite app_nil_r. split; [reflexivity|constructor].
  - destruct (at_ (worker_ p)) eqn:Hat.
    + destruct (worker_run t p) as [p1|] eqn:E1; [|discriminate].
      pose proof (worker_run_extends _ C E1) as X1.
      destruct (IH p1 p' (proj1 X1) E) as [X2 W]. split; [|exact W].
      exact (extends_trans X1 X2).
    + destruct (worker_run t p) as [p1|] eqn:E1; [|discriminate].
      pose proof (worker_run_extends _ C E1) as X1.
      destruct (IH p1 p' (proj1 X1) E) as [X2 W]. split; [|exact W].
      exact (extends_trans X1 X2).
    + inversion E; subst p'. split; [|reflexivity].
      split; [|split; [auto|]].
      * split; [|reflexivity]. cbn [this worker_ at_]. destruct C as [Cm _].
        now rewrite Cm, Hat.
      * exists []. rewrite app_nil_r. split; [reflexivity|constructor].
Qed.

Lemma happen_extends (e : event) (p p' : process) :
  consistent p -> happen e p = Some p' -> extends P p p'.
Proof.
  intros C E. destruct e as [r|sched|t]; cbn [happen] in E.
  - destruct (serve r (this p)) as [[x h]|] eqn:Es; [|discriminate].
    inversion E; subst p'; clear E.
    destruct (@serve_emits P (mtx_ (this p)) r (fun a b F _ => P_holds a b F)
                (this p) x h eq_refl Es) as (M & S & new & J & F).
    split; [|split; [exact S|now exists new]].
    destruct C as [Cm Cj]. split; cbn [this worker_]; [congruence|exact Cj].
  - unfold terminate_processing in E.
    destruct (request_stop (this p)) as [[[] h]|] eqn:Es; [|discriminate].
    destruct (@request_stop_emits P (mtx_ (this p)) (fun a b F _ => P_holds a b F)
                (this p) tt h eq_refl Es) as (M & S & new & J & F).
    assert (X1 : extends P p (Process h (worker_ p))).
    { split; [|split; [exact S|now exists new]].
      destruct C as [Cm Cj]. split; cbn [this worker_]; [congruence|exact Cj]. }
    cbn [worker_] in E. destruct (joinable (worker_ p)).
    + destruct (join_extends _ (proj1 X1) E) as [X2 _].
      exact (extends_trans X1 X2).
    + inversion E; subst p'. exact X1.
  - now apply worker_run_extends with t.
Qed.

Lemma run_extends (evs : list event) :
  forall p p' : process, consistent p -> run evs p = Some p' -> extends P p p'.
Proof.
  induction evs as [|e rest IH]; intros p p' C E; cbn [run] in E.
  - inversion E; subst p'. now apply extends_refl.
  - destruct (happen e p) as [p1|] eqn:E1; [|discriminate].
    pose proof (happen_extends _ C E1) as X1.
    exact (extends_trans X1 (IH p1 p' (proj1 X1) E)).
Qed.
End Events.

(** Once the worker is out of its loop and joined, whatever happens next
    returns, leaves it there, and runs no drain; what is enqueued stays in
    the queue. *)
Lemma stopped_forever (evs : list event) :
  forall p : process,
    worker_ p = Thread Stopped false -> mtx_ (this p) = false ->
    should_stop_ (this p) = true ->
    exists p' : process,
      run evs p = Some p' /\
      worker_ p' = Thread Stopped false /\ mtx_ (this p') = false /\
      should_stop_ (this p') = true /\
      drain_cycles (journal (this p')) = drain_cycles (journal (this p)) /\
      addition_jobs_ (this p') = addition_jobs_ (this p) ++ enqueued evs.
Proof.
  induction evs as [|e rest IH]; intros p W Hm Hs.
  - exists p. cbn [run enqueued flat_map]. rewrite app_nil_r. repeat split; auto.
  - assert (Step : exists p1 : process,
               happen e p = Some p1 /\ worker_ p1 = Thread Stopped false /\
               mtx_ (this p1) = false /\ should_stop_ (this p1) = true /\
               drain_cycles (journal (this p1)) = drain_cycles (journal (this p)) /\
               addition_jobs_ (this p1) =
                 addition_jobs_ (this p) ++
                 match e with ByCaller r => enqueued_by r | _ => [] end).
    { destruct e as [r|sched|t]; cbn [happen].
      - destruct (@serve_returns r (this p) Hm) as (x & h & Es & Eq).
        rewrite Es. eexists. split; [reflexivity|]. cbn [this worker_].
        destruct (@serve_emits (fun e => not_eat_jobs (act e)) false r
                    (fun a b _ N => N) (this p) x h Hm Es) as (M & S & new & J & F).
        repeat split; auto. rewrite J. now apply drain_cycles_quiet.
      - unfold terminate_processing. rewrite request_stop_runs by exact Hm.
        cbn [worker_]. rewrite W. cbn [joinable].
        eexists. split; [reflexivity|]. cbn [this worker_]. proj_simpl.
        repeat split; auto.
        + apply drain_cycles_quiet. repeat constructor.
        + now rewrite app_nil_r.
      - unfold worker_run. rewrite W. destruct t as [[w t1] t2].
        cbn [worker_move worker_step at_ ret joinable].
        exists (Process (this p) (Thread Stopped false)). cbn [this worker_].
        rewrite app_nil_r. repeat split; auto. }
    destruct Step as (p1 & E1 & W1 & M1 & S1 & D1 & A1).
    destruct (IH p1 W1 M1 S1) as (p' & E & W' & M' & S' & D' & A').
    exists p'. cbn [run]. rewrite E1.
    split; [exact E|]. split; [exact W'|]. split; [exact M'|]. split; [exact S'|].
    split; [congruence|].
    rewrite A', A1. cbn [enqueued flat_map]. now rewrite app_assoc.
Qed.
Lemma notifications_app (j1 j2 : list (entry file_record)) :
  notifications (j1 ++ j2) = notifications j1 + notifications j2.
Proof. unfold notifications. now rewrite filter_app, length_app. Qed.

Lemma notifications_woken (w : wakeup) (h : handler) :
  notifications (journal (woken w h)) = notifications (journal h).
Proof.
  unfold woken. proj_simpl. rewrite notifications_app.
  unfold wake_entries, stop_check.
  repeat match goal with |- context [if ?b then _ else _] => destruct b end;
    cbn; apply Nat.add_0_r.
Qed.

Lemma join_stopped (sched : list tick) (p : process) :
  at_ (worker_ p) = Stopped ->
  join sched p = Some (Process (this p) (Thread Stopped false)).
Proof. intros Hat. destruct sched; cbn [join]; now rewrite Hat. Qed.

(** [terminate_processing] does not return before the worker has left its
    loop, whatever the schedule. *)
Lemma terminate_only_after_exit (sched : list tick) (p p' : process) :
  consistent p -> terminate_processing sched p = Some p' ->
  at_ (worker_ p') = Stopped.
Proof.
  intros C E. unfold terminate_processing in E.
  destruct (request_stop (this p)) as [[[] h]|] eqn:Es; [|discriminate].
  destruct (@request_stop_emits (fun _ => True) (mtx_ (this p)) (fun _ _ _ _ => I)
              (this p) tt h eq_refl Es) as (M & _).
  assert (C1 : consistent (Process h (worker_ p))).
  { destruct C as [Cm Cj]. split; cbn [this worker_]; [congruence|exact Cj]. }
  cbn [worker_] in E. destruct (joinable (worker_ p)) eqn:Hj.
  - destruct (@join_extends (fun _ => True) (fun _ _ _ => I) sched _ _ C1 E) as [_ W].
    now rewrite W.
  - inversion E; subst p'. cbn [worker_]. exact (proj2 C Hj).
Qed.

(** *** Termination *)

(** C7. [terminate_processing], called when the mutex can be taken, sets
    the shutdown flag, notifies the condition variable once, and returns
    only with the worker out of its loop and joined (under no schedule
    does it return earlier), as soon as the worker gets one move; the
    worker runs no drain on the way.  A further call
    returns without a join and changes neither flag nor thread.  After the
    return, whatever is called or scheduled, the flag stays set, the worker
    stays stopped and no drain cycle is run; records enqueued afterwards
    remain in the addition queue.

    The return is the worker's doing: while a worker that waits has not
    moved, the call does not return, and the object it returns with is the
    one the worker left by its last move, in which it took the mutex,
    evaluated the wake predicate, read the flag and released the mutex.
    With the worker already out of its loop the call returns at once.  A
    call made while the worker drains cannot take the mutex; the worker
    finishes the drain by its next move and releases the mutex, and the
    call proceeds from there as described. *)
Theorem terminate_processing_joins (p : process) (t : tick) (rest : list tick) :
  consistent p -> mtx_ (this p) = false ->
  exists p1 : process,
    terminate_processing (t :: rest) p = Some p1 /\
    should_stop_ (this p1) = true /\
    worker_ p1 = Thread Stopped false /\
    mtx_ (this p1) = false /\
    notifications (journal (this p1)) = S (notifications (journal (this p))) /\
    drain_cycles (journal (this p1)) = drain_cycles (journal (this p)) /\
    index_manager_ (this p1) = index_manager_ (this p) /\
    addition_jobs_ (this p1) = addition_jobs_ (this p) /\
    (forall (sched : list tick) (p' : process),
      terminate_processing sched p = Some p' -> at_ (worker_ p') = Stopped) /\
    (forall sched : list tick,
      exists p2 : process,
        terminate_processing sched p1 = Some p2 /\
        worker_ p2 = worker_ p1 /\ should_stop_ (this p2) = true /\
        drain_cycles (journal (this p2)) = drain_cycles (journal (this p1))) /\
    (forall evs : list event,
      exists p3 : process,
        run evs p1 = Some p3 /\
        worker_ p3 = Thread Stopped false /\ should_stop_ (this p3) = true /\
        drain_cycles (journal (this p3)) = drain_cycles (journal (this p1)) /\
        addition_jobs_ (this p3) = addition_jobs_ (this p1) ++ enqueued evs) /\
    (at_ (worker_ p) = Waiting -> joinable (worker_ p) = true ->
     terminate_processing [] p = None /\
     this p1 = woken (fst (fst t)) (stop_requested (this p))) /\
    (at_ (worker_ p) = Stopped -> this p1 = stop_requested (this p)) /\
    (forall (q : process) (t0 : tick),
      consistent q -> mtx_ (this q) = true ->
      terminate_processing (t :: rest) q = None /\
      exists q0 : process,
        worker_run t0 q = Some q0 /\
        consistent q0 /\ mtx_ (this q0) = false /\ at_ (worker_ q0) = Waiting /\
        drain_cycles (journal (this q0)) = S (drain_cycles (journal (this q)))).
Proof.
  intros [Cm Cj] Hm.
  set (h1 := with_journal
               (journal (this p) ++ [Entry OnShouldStop true; Entry NotifyOne false])
               (with_should_stop true (this p))).
  assert (Main : exists p1 : process,
             terminate_processing (t :: rest) p = Some p1 /\
             should_stop_ (this p1) = true /\
             worker_ p1 = Thread Stopped false /\
             mtx_ (this p1) = false /\
             notifications (journal (this p1)) = S (notifications (journal (this p))) /\
             drain_cycles (journal (this p1)) = drain_cycles (journal (this p)) /\
             index_manager_ (this p1) = index_manager_ (this p) /\
             addition_jobs_ (this p1) = addition_jobs_ (this p)).
  { assert (N1 : notifications (journal h1) = S (notifications (journal (this p)))).
    { unfold h1. proj_simpl. rewrite notifications_app. cbn. lia. }
    assert (D1 : drain_cycles (journal h1) = drain_cycles (journal (this p))).
    { unfold h1. proj_simpl. apply drain_cycles_quiet. repeat constructor. }
    unfold terminate_processing. rewrite request_stop_runs by exact Hm. fold h1.
    cbn [worker_]. destruct (worker_ p) as [pc j] eqn:W. cbn [at_ joinable] in *.
    destruct j.
    - destruct pc.
      + cbn [join worker_ at_]. unfold worker_run. cbn [worker_ at_ this joinable].
        destruct t as [[w t1] t2]. cbn [worker_move].
        rewrite worker_step_waiting by exact Hm.
        assert (A : after_wait w h1 = Stopped) by reflexivity.
        rewrite A. rewrite join_stopped by reflexivity. cbn [this].
        eexists. split; [reflexivity|]. cbn [this worker_].
        repeat split.
        * rewrite notifications_woken. exact N1.
        * rewrite drain_cycles_woken. exact D1.
      + rewrite Hm in Cm. discriminate Cm.
      + rewrite join_stopped by reflexivity. cbn [this].
        eexists. split; [reflexivity|]. cbn [this worker_].
        repeat split; [exact Hm|exact N1|exact D1].
    - rewrite (Cj eq_refl). eexists. split; [reflexivity|]. cbn [this worker_].
      repeat split; [exact Hm|exact N1|exact D1]. }
  destruct Main as (p1 & E & S1 & W1 & M1 & N1 & D1 & I1 & A1).
  exists p1. repeat (split; [assumption|]).
  split; [intros sched p' Et; exact (terminate_only_after_exit sched (conj Cm Cj) Et)|].
  split.
  - intros sched.
    destruct (@stopped_forever [ByTerminate sched] p1 W1 M1 S1)
      as (p2 & E2 & W2 & _ & S2 & D2 & _).
    cbn [run happen] in E2.
    destruct (terminate_processing sched p1) as [q|]; [|discriminate].
    inversion E2; subst q. exists p2. repeat split; congruence.
  - split.
    { intros evs.
      destruct (@stopped_forever evs p1 W1 M1 S1)
        as (p3 & E3 & W3 & _ & S3 & D3 & A3).
      exists p3. repeat split; assumption. }
    split.
    { intros Hw Hj. split.
      - unfold terminate_processing. rewrite request_stop_runs by exact Hm.
        cbn [worker_]. rewrite Hj. cbn [join worker_]. now rewrite Hw.
      - revert E. unfold terminate_processing.
        rewrite request_stop_runs by exact Hm. fold h1.
        cbn [worker_]. rewrite Hj. cbn [join worker_]. rewrite Hw.
        unfold worker_run. cbn [worker_ this]. rewrite Hw.
        destruct t as [[w t1] t2]. cbn [worker_move fst].
        rewrite worker_step_waiting by exact Hm.
        assert (A : after_wait w h1 = Stopped) by reflexivity.
        rewrite A. rewrite join_stopped by reflexivity. cbn [this].
        intros E. now inversion E. }
    split.
    { intros Hw. revert E. unfold terminate_processing.
      rewrite request_stop_runs by exact Hm. fold h1. cbn [worker_].
      destruct (joinable (worker_ p)).
      - rewrite join_stopped by exact Hw. cbn [this]. intros E. now inversion E.
      - intros E. now inversion E. }
    intros q t0 [Qm Qj] Hq.
    assert (Hd : at_ (worker_ q) = Draining).
    { rewrite Hq in Qm. destruct (at_ (worker_ q)); try discriminate Qm. reflexivity. }
    split.
    { unfold terminate_processing.
      assert (N : request_stop (this q) = None).
      { unfold request_stop, lock_guard. unfold bind at 1. unfold bind at 1.
        unfold lock. now rewrite Hq. }
      now rewrite N. }
    unfold worker_run. rewrite Hd. destruct t0 as [[w0 a0] b0]. cbn [worker_move].
    rewrite worker_step_draining. eexists. split; [reflexivity|].
    cbn [this worker_ at_ joinable]. proj_simpl.
    split.
    { split; [reflexivity|]. cbn [worker_ at_ joinable]. intros Hj.
      rewrite (Qj Hj) in Hd. discriminate Hd. }
    split; [reflexivity|]. split; [reflexivity|].
    apply drain_cycles_eaten.
Qed.

(** *** Lock discipline *)

Lemma serve_under_lock (r : request) : emits under_lock false false (serve r).
Proof.
  destruct r; unfold_members; emits_go;
    unfold under_lock; cbn; intros; reflexivity || discriminate.
Qed.

(** C9 (amended). With the mutex free at the call, every member function
    of the public surface reaches the addition queue, the shutdown flag and
    the index (but for [index_directory]) only with the mutex held; so does
    [terminate_processing] for the flag, and everything the worker does
    happens with the mutex held.  The pending records are outside of this:
    [insert_pending_records] and [record_size] take no lock, and
    [run_scheduled_task] holds the lock only from reading the front record
    to the delayed add, the test for emptiness, the size and every pop being
    done without it.  The mount manager is called without the lock:
    [refresh_mount_status], [device_available] and
    [fetch_mount_point_for_device], like the mount type test of
    [ignored_event], make their one call without touching the mutex, whether
    it is free or held by another thread, and so does [get_index_directory]
    on the index; called with the mutex free, each journals its call as
    made without it. *)
Theorem lock_discipline :
  (forall (r : request) (h : handler) (x : reply) (h' : handler),
      mtx_ h = false -> serve r h = Some (x, h') ->
      exists new : list (entry file_record),
        journal h' = journal h ++ new /\ Forall under_lock new) /\
  (forall h : handler,
      mtx_ h = false ->
      exists h' : handler,
        request_stop h = Some (tt, h') /\
        journal h' = journal h ++ [Entry OnShouldStop true; Entry NotifyOne false]) /\
  (forall (w : wakeup) (t1 t2 : Z) (pc pc' : worker_pc) (h h' : handler),
      mtx_ h = held_at pc -> worker_step w t1 t2 pc h = Some (pc', h') ->
      exists new : list (entry file_record),
        journal h' = journal h ++ new /\ Forall (fun e => held e = true) new) /\
  (forall (records : list file_record) (h : handler),
      mtx_ h = false ->
      insert_pending_records records h =
        Some (tt, with_journal (journal h ++ [Entry OnRecords false])
                    (with_records (records_ h ++ records) h))) /\
  (forall h : handler,
      mtx_ h = false ->
      record_size h =
        Some (List.length (records_ h),
              with_journal (journal h ++ [Entry OnRecords false]) h)) /\
  (forall h : handler,
      mtx_ h = false -> records_ h <> [] ->
      exists h' : handler,
        run_scheduled_task h = Some (tt, h') /\
        journal h' =
          journal h ++ [Entry OnRecords false; Entry OnRecords false] ++
          flat_map
            (fun r => [Entry OnRecords true; Entry (OnStore (CallAddIndexDelay r)) true;
                       Entry OnRecords false])
            (firstn (Nat.min 500 (List.length (records_ h))) (records_ h)) ++
          [Entry NotifyOne false]) /\
  (forall (path : string) (h : handler),
      mtx_ h = false -> ends_with path ".longname" = false ->
      exists (b : bool) (h' : handler),
        ignored_event path false h = Some (b, h') /\
        journal h' =
          journal h ++ [Entry (OnMount (CallPathMatchType path "fuse.dlnfs")) false]) /\
  (forall h : handler,
      refresh_mount_status h =
        Some (tt, with_mnt_manager (mount_manager.update (mnt_manager_ h))
                    (with_journal (journal h ++ [Entry (OnMount CallUpdate) (mtx_ h)]) h)) /\
      (mtx_ h = false ->
       exists h' : handler,
         refresh_mount_status h = Some (tt, h') /\ mtx_ h' = false /\
         journal h' = journal h ++ [Entry (OnMount CallUpdate) false])) /\
  (forall (device_id : Z) (h : handler),
      device_available device_id h =
        Some (mount_manager.contains_device device_id (mnt_manager_ h),
              with_journal
                (journal h ++ [Entry (OnMount (CallContainsDevice device_id)) (mtx_ h)]) h) /\
      (mtx_ h = false ->
       exists (b : bool) (h' : handler),
         device_available device_id h = Some (b, h') /\ mtx_ h' = false /\
         journal h' = journal h ++ [Entry (OnMount (CallContainsDevice device_id)) false])) /\
  (forall (device_id : Z) (h : handler),
      fetch_mount_point_for_device device_id h =
        Some (mount_manager.get_mount_point device_id (mnt_manager_ h),
              with_journal
                (journal h ++ [Entry (OnMount (CallGetMountPoint device_id)) (mtx_ h)]) h) /\
      (mtx_ h = false ->
       exists (s : string) (h' : handler),
         fetch_mount_point_for_device device_id h = Some (s, h') /\ mtx_ h' = false /\
         journal h' = journal h ++ [Entry (OnMount (CallGetMountPoint device_id)) false])) /\
  (forall h : handler,
      get_index_directory h =
        Some (index_manager.index_directory (index_manager_ h),
              with_journal (journal h ++ [Entry (OnStore CallIndexDirectory) (mtx_ h)]) h) /\
      (mtx_ h = false ->
       exists (s : string) (h' : handler),
         get_index_directory h = Some (s, h') /\ mtx_ h' = false /\
         journal h' = journal h ++ [Entry (OnStore CallIndexDirectory) false])).
Proof.
  repeat match goal with |- _ /\ _ => split end.
  - intros r h x h' Hm E.
    destruct (@serve_under_lock r h x h' Hm E) as (_ & _ & new & J & F).
    now exists new.
  - intros h Hm. eexists. split; [now apply request_stop_runs|reflexivity].
  - intros w t1 t2 pc pc' h h' Hm E.
    destruct (@worker_step_emits (fun e => held e = true) w t1 t2 pc h h' pc'
                (fun _ _ => eq_refl) Hm E) as (_ & _ & new & J & F).
    now exists new.
  - intros records h Hm. unfold insert_pending_records. unfold_m. now rewrite Hm.
  - intros h Hm. unfold record_size. unfold_m. now rewrite Hm.
  - intros h Hm Hr. exists (scheduled h).
    split; [now apply run_scheduled_task_runs|].
    unfold scheduled. destruct (records_ h); [now destruct Hr|reflexivity].
  - intros path h Hm Hs. unfold ignored_event. rewrite Hs. cbn [negb].
    unfold_m. proj_simpl. rewrite Hm.
    destruct (mount_manager.path_match_type path "fuse.dlnfs" (mnt_manager_ h));
      eexists; eexists; split; reflexivity.
  - intros h. split; [reflexivity|]. intros Hm. eexists.
    split; [reflexivity|]. proj_simpl. rewrite Hm. split; reflexivity.
  - intros d h. split; [reflexivity|]. intros Hm. eexists. eexists.
    split; [reflexivity|]. proj_simpl. rewrite Hm. split; reflexivity.
  - intros d h. split; [reflexivity|]. intros Hm. eexists. eexists.
    split; [reflexivity|]. proj_simpl. rewrite Hm. split; reflexivity.
  - intros h. split; [reflexivity|]. intros Hm. eexists. eexists.
    split; [reflexivity|]. proj_simpl. rewrite Hm. split; reflexivity.
Qed.

(** *** Fuzzy search *)

(** C10. [search] with a non-negative offset asks the index with the fuzzy
    flag set and returns its answer; and in no run of the process, whatever
    member functions are called and however the worker is scheduled, is the
    index asked to search without the fuzzy flag. *)
Theorem search_is_always_fuzzy :
  (forall (path keywords : string) (offset max_count : Z) (h : handler),
      (0 <= offset)%Z -> mtx_ h = false ->
      exists h' : handler,
        search path keywords offset max_count h =
          Some (index_manager.search path keywords offset max_count true
                  (index_manager_ h), h') /\
        store_calls (journal h') =
          store_calls (journal h) ++ [CallSearch path keywords offset max_count true]) /\
  (forall (evs : list event) (p p' : process),
      consistent p -> run evs p = Some p' ->
      exists new : list (entry file_record),
        journal (this p') = journal (this p) ++ new /\
        forall (path keywords : string) (offset max_count : Z) (fuzzy b : bool),
          In (Entry (OnStore (CallSearch path keywords offset max_count fuzzy)) b) new ->
          fuzzy = true).
Proof.
  split.
  - intros path keywords offset max_count h Ho Hm.
    unfold search. apply Z.ltb_ge in Ho. rewrite Ho.
    destruct h as [im mm rs aj bs bi la ss mx j]; proj_simpl; subst mx.
    unfold_m. eexists. split; [reflexivity|]. proj_simpl.
    now rewrite store_calls_app.
  - intros evs p p' C E.
    destruct (@run_extends (fun e => fuzzy_if_search (act e)) (fun a b F => F)
                evs p p' C E) as (_ & _ & new & J & F).
    exists new. split; [exact J|].
    intros path keywords offset max_count fuzzy b Hin.
    rewrite Forall_forall in F. exact (F _ Hin).
Qed.
(** *** Rules for frames *)

Section Keeps.
Context {B : Type}.
Variable f : handler -> B.

Lemma keeps_ret (A : Type) (x : A) : keeps f (ret x).
Proof. intros h y h' E. now inversion E. Qed.

Lemma keeps_gets (A : Type) (g : handler -> A) : keeps f (gets g).
Proof. intros h y h' E. now inversion E. Qed.

Lemma keeps_bind (A C : Type) (c : M A) (k : A -> M C) :
  keeps f c -> (forall x : A, keeps f (k x)) -> keeps f (bind c k).
Proof.
  intros Hc Hk h y h' E. unfold bind in E.
  destruct (c h) as [[x h1]|] eqn:E1; [|discriminate].
  rewrite (Hk x h1 y h' E). exact (Hc h x h1 E1).
Qed.

Lemma keeps_modify (g : handler -> handler) :
  (forall h, f (g h) = f h) -> keeps f (modify g).
Proof. intros Hg h y h' E. inversion E; subst. apply Hg. Qed.

Lemma keeps_for_loop (body : M unit) (n : nat) :
  keeps f body -> keeps f (for_loop n body).
Proof.
  intros Hb. induction n as [|n IH]; cbn [for_loop]; [apply keeps_ret|].
  apply keeps_bind; [exact Hb|intros _; exact IH].
Qed.

(** An observation that looks at neither the journal nor the mutex. *)
Hypothesis f_journal : forall v h, f (with_journal v h) = f h.
Hypothesis f_mtx : forall v h, f (with_mtx v h) = f h.

Lemma keeps_note (a : action file_record) : keeps f (note a).
Proof. apply keeps_modify. intros h. apply f_journal. Qed.

Lemma keeps_lock : keeps f lock.
Proof.
  intros h y h' E. unfold lock in E. destruct (mtx_ h); [discriminate|].
  inversion E; subst. apply f_mtx.
Qed.

Lemma keeps_unlock : keeps f unlock.
Proof. apply keeps_modify. intros h. apply f_mtx. Qed.

Lemma keeps_lock_guard (A : Type) (body : M A) :
  keeps f body -> keeps f (lock_guard body).
Proof.
  intros Hb. unfold lock_guard.
  apply keeps_bind; [apply keeps_lock|intros _].
  apply keeps_bind; [exact Hb|intros x].
  apply keeps_bind; [apply keeps_unlock|intros _; apply keeps_ret].
Qed.

Lemma keeps_records_empty : keeps f records_empty.
Proof. apply keeps_bind; [apply keeps_note|intros _; apply keeps_gets]. Qed.

Lemma keeps_records_size : keeps f records_size.
Proof. apply keeps_bind; [apply keeps_note|intros _; apply keeps_gets]. Qed.

Lemma keeps_records_front : keeps f records_front.
Proof.
  apply keeps_bind; [apply keeps_note|intros _].
  intros h y h' E. destruct (records_ h); [discriminate|]. now inversion E.
Qed.

Lemma keeps_records_pop_front :
  (forall v h, f (with_records v h) = f h) -> keeps f records_pop_front.
Proof.
  intros Hr. apply keeps_bind; [apply keeps_note|intros _].
  intros h y h' E. destruct (records_ h); [discriminate|].
  inversion E; subst. apply Hr.
Qed.

Lemma keeps_records_insert_end (l : list file_record) :
  (forall v h, f (with_records v h) = f h) -> keeps f (records_insert_end l).
Proof.
  intros Hr. apply keeps_bind; [apply keeps_note|intros _].
  apply keeps_modify. intros h. apply Hr.
Qed.

Lemma keeps_addition_jobs_size : keeps f addition_jobs_size.
Proof. apply keeps_bind; [apply keeps_note|intros _; apply keeps_gets]. Qed.

Lemma keeps_addition_jobs_front : keeps f addition_jobs_front.
Proof.
  apply keeps_bind; [apply keeps_note|intros _].
  intros h y h' E. destruct (addition_jobs_ h); [discriminate|]. now inversion E.
Qed.

Lemma keeps_addition_jobs_pop :
  (forall v h, f (with_addition_jobs v h) = f h) -> keeps f addition_jobs_pop.
Proof.
  intros Hr. apply keeps_bind; [apply keeps_note|intros _].
  intros h y h' E. destruct (addition_jobs_ h); [discriminate|].
  inversion E; subst. apply Hr.
Qed.

Lemma keeps_addition_jobs_push (r : file_record) :
  (forall v h, f (with_addition_jobs v h) = f h) -> keeps f (addition_jobs_push r).
Proof.
  intros Hr. apply keeps_bind; [apply keeps_note|intros _].
  apply keeps_modify. intros h. apply Hr.
Qed.

Lemma keeps_on_index (c : store_call file_record) (g : Store -> Store) :
  (forall v h, f (with_index_manager v h) = f h) -> keeps f (on_index c g).
Proof.
  intros Hr. apply keeps_bind; [apply keeps_note|intros _].
  apply keeps_modify. intros h. apply Hr.
Qed.

Lemma keeps_ask_index (A : Type) (c : store_call file_record) (g : Store -> A) :
  keeps f (ask_index c g).
Proof. apply keeps_bind; [apply keeps_note|intros _; apply keeps_gets]. Qed.

Lemma keeps_on_mounts (c : mount_call) (g : Mnt -> Mnt) :
  (forall v h, f (with_mnt_manager v h) = f h) -> keeps f (on_mounts c g).
Proof.
  intros Hr. apply keeps_bind; [apply keeps_note|intros _].
  apply keeps_modify. intros h. apply Hr.
Qed.

Lemma keeps_ask_mounts (A : Type) (c : mount_call) (g : Mnt -> A) :
  keeps f (ask_mounts c g).
Proof. apply keeps_bind; [apply keeps_note|intros _; apply keeps_gets]. Qed.
End Keeps.

(** Closes a condition of the form [f (with_x v h) = f h]. *)
Ltac frame := intros; reflexivity.

(** Walks through a member function with the rules for frames; it fails
    on a statement that writes what the observation reads. *)
Ltac keeps_go :=
  lazymatch goal with
  | |- keeps _ (bind _ _) => apply keeps_bind; [keeps_go | intros ?; keeps_go]
  | |- keeps _ (if ?b then _ else _) => destruct b; keeps_go
  | |- keeps _ (match ?x with _ => _ end) => destruct x; keeps_go
  | |- keeps _ (lock_guard _) => apply keeps_lock_guard; keeps_go
  | |- keeps _ (for_loop _ _) => apply keeps_for_loop; keeps_go
  | |- keeps _ (ret _) => apply keeps_ret
  | |- keeps _ (gets _) => apply keeps_gets
  | |- keeps _ notify_one => apply keeps_note; keeps_go
  | |- keeps _ (note _) => apply keeps_note; keeps_go
  | |- keeps _ lock => apply keeps_lock; keeps_go
  | |- keeps _ unlock => apply keeps_unlock; keeps_go
  | |- keeps _ (modify _) => apply keeps_modify; keeps_go
  | |- keeps _ records_empty => apply keeps_records_empty; keeps_go
  | |- keeps _ records_size => apply keeps_records_size; keeps_go
  | |- keeps _ records_front => apply keeps_records_front; keeps_go
  | |- keeps _ records_pop_front => apply keeps_records_pop_front; keeps_go
  | |- keeps _ (records_insert_end _) => apply keeps_records_insert_end; keeps_go
  | |- keeps _ addition_jobs_size => apply keeps_addition_jobs_size; keeps_go
  | |- keeps _ addition_jobs_front => apply keeps_addition_jobs_front; keeps_go
  | |- keeps _ addition_jobs_pop => apply keeps_addition_jobs_pop; keeps_go
  | |- keeps _ (addition_jobs_push _) => apply keeps_addition_jobs_push; keeps_go
  | |- keeps _ (on_index _ _) => apply keeps_on_index; keeps_go
  | |- keeps _ (ask_index _ _) => apply keeps_ask_index; keeps_go
  | |- keeps _ (on_mounts _ _) => apply keeps_on_mounts; keeps_go
  | |- keeps _ (ask_mounts _ _) => apply keeps_ask_mounts; keeps_go
  | |- keeps _ wake_predicate => unfold wake_predicate; keeps_go
  | |- keeps _ (wait_for _) => unfold wait_for; keeps_go
  | |- keeps _ (eat_jobs _ _) => unfold eat_jobs; keeps_go
  | |- keeps _ _ => fail "no rule for this statement"
  | |- _ => frame
  end.

(** *** The settings *)

Lemma serve_keeps_settings (r : request) : keeps settings (serve r).
Proof. destruct r; unfold_members; keeps_go. Qed.

Lemma worker_step_keeps_beyond (w : wakeup) (t1 t2 : Z) (pc : worker_pc) :
  keeps beyond_worker (worker_step w t1 t2 pc).
Proof.
  destruct pc; cbn [worker_step]; unfold_members.
  - keeps_go.
  - keeps_go.
  - keeps_go.
Qed.

(** *** Enqueueing *)

Lemma add_index_delay_runs (record : file_record) (h : handler) :
  mtx_ h = false ->
  add_index_delay record h =
    Some (tt, with_journal
                (journal h ++
                 [Entry OnAdditionJobs true; Entry OnAdditionJobs true] ++
                 (if batch_size_ h <? S (List.length (addition_jobs_ h))
                  then [Entry NotifyOne true] else []))
                (with_addition_jobs (addition_jobs_ h ++ [record]) h)).
Proof.
  intros Hm. destruct h as [im mm rs aj bs bi la ss mx j]; proj_simpl; subst mx.
  unfold add_index_delay. unfold_m. proj_simpl.
  rewrite length_app. cbn [List.length]. rewrite Nat.add_1_r.
  destruct (bs <? S (List.length aj)); proj_simpl;
    repeat rewrite <- app_assoc; reflexivity.
Qed.

(** X1. [add_index_delay], called with the mutex free, appends the record
    at the tail of the addition queue and calls nothing into the index; it
    notifies the worker exactly when the queue, the new record included, is
    longer than [batch_size_], and then the worker's wake predicate holds in
    the object it leaves. *)
Theorem add_index_delay_enqueues (record : file_record) (h : handler) :
  mtx_ h = false ->
  let signalled := batch_size_ h <? S (List.length (addition_jobs_ h)) in
  exists h' : handler,
    add_index_delay record h = Some (tt, h') /\
    addition_jobs_ h' = addition_jobs_ h ++ [record] /\
    index_manager_ h' = index_manager_ h /\
    records_ h' = records_ h /\
    mtx_ h' = false /\
    store_calls (journal h') = store_calls (journal h) /\
    notifications (journal h') =
      notifications (journal h) + (if signalled then 1 else 0) /\
    (signalled = true -> wake_condition h' = true).
Proof.
  intros Hm signalled. eexists. split; [now apply add_index_delay_runs|].
  proj_simpl. fold signalled.
  split; [reflexivity|]. split; [reflexivity|]. split; [reflexivity|].
  split; [exact Hm|]. split.
  { rewrite store_calls_app. destruct signalled; cbn; apply app_nil_r. }
  split.
  { rewrite notifications_app. destruct signalled; reflexivity. }
  intros Hs. unfold wake_condition. proj_simpl.
  rewrite length_app. cbn [List.length]. rewrite Nat.add_1_r.
  fold signalled. now rewrite Hs.
Qed.

Lemma remove_index_delay_runs (term : string) (h : handler) :
  mtx_ h = false ->
  let s1 := index_manager.remove_index_delay term (index_manager_ h) in
  remove_index_delay term h =
    Some (tt, with_journal
                (journal h ++
                 [Entry (OnStore (CallRemoveIndexDelay term)) true;
                  Entry (OnStore CallDeletionJobsReady) true] ++
                 (if index_manager.deletion_jobs_ready s1
                  then [Entry NotifyOne true] else []))
                (with_index_manager s1 h)).
Proof.
  intros Hm. destruct h as [im mm rs aj bs bi la ss mx j]; proj_simpl; subst mx.
  unfold remove_index_delay. unfold_m. proj_simpl.
  destruct (index_manager.deletion_jobs_ready
              (index_manager.remove_index_delay term im)); proj_simpl;
    repeat rewrite <- app_assoc; reflexivity.
Qed.

(** X2. [remove_index_delay], called with the mutex free, hands the term
    to the index's delayed removal, then asks the index whether deletion
    jobs are ready and notifies the worker exactly when they are; after a
    notification the worker's wake predicate holds.  Neither queue is
    touched. *)
Theorem remove_index_delay_forwards (term : string) (h : handler) :
  mtx_ h = false ->
  let s1 := index_manager.remove_index_delay term (index_manager_ h) in
  let ready := index_manager.deletion_jobs_ready s1 in
  exists h' : handler,
    remove_index_delay term h = Some (tt, h') /\
    index_manager_ h' = s1 /\
    store_calls (journal h') =
      store_calls (journal h) ++ [CallRemoveIndexDelay term; CallDeletionJobsReady] /\
    notifications (journal h') = notifications (journal h) + (if ready then 1 else 0) /\
    (ready = true -> wake_condition h' = true) /\
    addition_jobs_ h' = addition_jobs_ h /\
    records_ h' = records_ h /\
    mtx_ h' = false.
Proof.
  intros Hm s1 ready. eexists. split; [now apply remove_index_delay_runs|].
  proj_simpl. fold s1. fold ready.
  split; [reflexivity|]. split.
  { rewrite store_calls_app. destruct ready; reflexivity. }
  split.
  { rewrite notifications_app. destruct ready; reflexivity. }
  split.
  { intros Hr. unfold wake_condition. proj_simpl. fold s1. fold ready.
    rewrite Hr. apply orb_true_iff. left. apply orb_true_r. }
  repeat split. exact Hm.
Qed.

(** *** The scheduled task and the condition variable *)

Lemma notifications_drain_entries (l : list file_record) :
  notifications (flat_map drain_entries l) = 0.
Proof. induction l as [|r l IH]; [reflexivity|exact IH]. Qed.

Lemma run_scheduled_task_empty (h : handler) :
  records_ h = [] ->
  run_scheduled_task h =
    Some (tt, with_journal
                (journal h ++ [Entry OnRecords (mtx_ h); Entry NotifyOne (mtx_ h)]) h).
Proof.
  intros Hr. destruct h as [im mm rs aj bs bi la ss mx j]; proj_simpl; subst rs.
  unfold run_scheduled_task.
  erewrite bind_some; [|unfold_m; proj_simpl; reflexivity].
  cbn [is_nil negb]. erewrite bind_some; [|reflexivity].
  unfold_m. proj_simpl. rewrite <- app_assoc. reflexivity.
Qed.

(** X3. On an empty pending buffer [run_scheduled_task] takes no lock and
    calls nothing into the index, whatever the state of the mutex, and
    still notifies the worker; called with the mutex free it notifies
    exactly once, however many records it drains. *)
Theorem run_scheduled_task_notifies (h : handler) :
  (records_ h = [] ->
   run_scheduled_task h =
     Some (tt, with_journal
                 (journal h ++ [Entry OnRecords (mtx_ h); Entry NotifyOne (mtx_ h)]) h)) /\
  (mtx_ h = false ->
   exists h' : handler,
     run_scheduled_task h = Some (tt, h') /\
     notifications (journal h') = S (notifications (journal h))).
Proof.
  split; [apply run_scheduled_task_empty|].
  intros Hm. exists (scheduled h). split; [now apply run_scheduled_task_runs|].
  unfold scheduled. destruct (records_ h); proj_simpl.
  - rewrite notifications_app. cbn. apply Nat.add_1_r.
  - rewrite !notifications_app, notifications_drain_entries. cbn. lia.
Qed.

(** *** Returning, and waiting for the mutex *)

(** X4. Called with the mutex free, every member function of the public
    surface returns (no [front()] or [pop()] meets an empty container, no
    lock is taken twice) and has released the mutex when it does. *)
Theorem serve_releases_the_mutex (r : request) (h : handler) :
  mtx_ h = false ->
  exists (x : reply) (h' : handler), serve r h = Some (x, h') /\ mtx_ h' = false.
Proof.
  intros Hm. destruct (@serve_returns r h Hm) as (x & h' & E & _).
  exists x, h'. split; [exact E|].
  exact (proj1 (@serve_emits (fun _ => True) false r (fun _ _ _ _ => I) h x h' Hm E)).
Qed.

(** X5. While another thread holds the mutex, a member function returns
    exactly when its path through the code takes no lock: the pending
    buffer and mount wrappers, [get_index_directory], [ignored_event], a
    [search] with a negative offset, an [addPath] for which no record is
    generated, and [run_scheduled_task] on an empty buffer go through and
    leave the mutex held; every other call waits. *)
Theorem serve_while_locked (r : request) (h : handler) :
  mtx_ h = true ->
  if takes_lock r h
  then serve r h = None
  else exists (x : reply) (h' : handler), serve r h = Some (x, h') /\ mtx_ h' = true.
Proof.
  intros Hm. destruct r; cbn [takes_lock serve].
  - destruct (records_ h) as [|r0 rs] eqn:Hr; cbn [is_nil negb].
    + erewrite bind_some; [|apply (run_scheduled_task_empty h Hr)].
      eexists. eexists. split; [reflexivity|exact Hm].
    + assert (N : run_scheduled_task h = None).
      { destruct h as [im mm rs' aj bs bi la ss mx j]; proj_simpl; subst mx rs'.
        unfold run_scheduled_task.
        erewrite bind_some; [|unfold_m; proj_simpl; reflexivity].
        cbn [is_nil negb]. unfold bind at 1. unfold bind at 1.
        unfold records_size at 1. unfold_m. proj_simpl.
        destruct (Nat.min 500 (List.length (r0 :: rs))) eqn:Hk.
        - exfalso. revert Hk. cbn [List.length].
          apply Nat.min_case_strong; intros; lia.
        - reflexivity. }
      unfold bind. now rewrite N.
  - unfold ignored_event.
    destruct (ends_with path ".longname"); [eexists; eexists; split; [reflexivity|exact Hm]|].
    destruct ignored; [eexists; eexists; split; [reflexivity|exact Hm]|].
    cbn [negb]. unfold_m. proj_simpl.
    destruct (mount_manager.path_match_type path "fuse.dlnfs" (mnt_manager_ h));
      eexists; eexists; (split; [reflexivity|exact Hm]).
  - unfold insert_pending_records. unfold_m.
    eexists; eexists; (split; [reflexivity|exact Hm]).
  - unfold record_size. unfold_m. eexists; eexists; (split; [reflexivity|exact Hm]).
  - unfold refresh_mount_status. unfold_m.
    eexists; eexists; (split; [reflexivity|exact Hm]).
  - unfold device_available. unfold_m.
    eexists; eexists; (split; [reflexivity|exact Hm]).
  - unfold fetch_mount_point_for_device. unfold_m.
    eexists; eexists; (split; [reflexivity|exact Hm]).
  - unfold get_index_directory. unfold_m.
    eexists; eexists; (split; [reflexivity|exact Hm]).
  - unfold set_index_change_filter. unfold_m. now rewrite Hm.
  - unfold add_index_delay. unfold_m. now rewrite Hm.
  - unfold remove_index_delay. unfold_m. now rewrite Hm.
  - unfold search. destruct (offset <? 0)%Z; cbn [negb]; unfold_m.
    + eexists; eexists; (split; [reflexivity|exact Hm]).
    + now rewrite Hm.
  - unfold removePath. unfold_m. now rewrite Hm.
  - unfold hasLFT. unfold_m. now rewrite Hm.
  - unfold addPath. cbv zeta. destruct (generate_file_record fullPath); unfold_m.
    + now rewrite Hm.
    + eexists; eexists; (split; [reflexivity|exact Hm]).
  - unfold index_files_in_directory. unfold_m.
    eexists; eexists; (split; [reflexivity|exact Hm]).
Qed.

(** *** What never changes *)

Lemma worker_loop_keeps_beyond (sched : list tick) :
  forall pc : worker_pc, keeps beyond_worker (worker_loop sched pc).
Proof.
  induction sched as [|[[w t1] t2] rest IH]; intros pc; cbn [worker_loop worker_move].
  - apply keeps_ret.
  - apply keeps_bind; [apply worker_step_keeps_beyond|intros pc'; apply IH].
Qed.

Lemma worker_run_keeps_beyond (t : tick) (p p' : process) :
  worker_run t p = Some p' -> beyond_worker (this p') = beyond_worker (this p).
Proof.
  unfold worker_run. destruct t as [[w t1] t2]. cbn [worker_move]. intros E.
  destruct (worker_step w t1 t2 (at_ (worker_ p)) (this p)) as [[pc h]|] eqn:Es;
    [|discriminate].
  inversion E; subst p'. cbn [this].
  exact (@worker_step_keeps_beyond w t1 t2 _ _ _ _ Es).
Qed.

Lemma join_keeps_beyond (sched : list tick) :
  forall p p' : process,
    join sched p = Some p' -> beyond_worker (this p') = beyond_worker (this p).
Proof.
  induction sched as [|t rest IH]; intros p p' E; cbn [join] in E.
  - destruct (at_ (worker_ p)); try discriminate. now inversion E.
  - destruct (at_ (worker_ p)).
    + destruct (worker_run t p) as [p1|] eqn:E1; [|discriminate].
      rewrite (IH p1 p' E). now apply worker_run_keeps_beyond with t.
    + destruct (worker_run t p) as [p1|] eqn:E1; [|discriminate].
      rewrite (IH p1 p' E). now apply worker_run_keeps_beyond with t.
    + now inversion E.
Qed.

Lemma settings_beyond (h h' : handler) :
  beyond_worker h' = beyond_worker h -> settings h' = settings h.
Proof. unfold beyond_worker. intros E. exact (f_equal snd E). Qed.

Lemma happen_keeps_settings (e : event) (p p' : process) :
  happen e p = Some p' -> settings (this p') = settings (this p).
Proof.
  destruct e as [r|sched|t]; cbn [happen]; intros E.
  - destruct (serve r (this p)) as [[x h]|] eqn:Es; [|discriminate].
    inversion E; subst p'. exact (@serve_keeps_settings r _ _ _ Es).
  - unfold terminate_processing in E.
    destruct (request_stop (this p)) as [[[] h]|] eqn:Es; [|discriminate].
    assert (K : keeps settings request_stop) by (unfold_members; keeps_go).
    pose proof (K _ _ _ Es) as S1. cbn [worker_] in E.
    destruct (joinable (worker_ p)).
    + apply join_keeps_beyond, settings_beyond in E. cbn [this] in E. congruence.
    + inversion E; subst p'. exact S1.
  - now apply settings_beyond, worker_run_keeps_beyond with t.
Qed.

(** X6. Nothing that can happen to the process changes [batch_size_] or
    [batch_interval_]: no member function, no move of the worker, no
    [terminate_processing].  In an object built by the constructor the
    batch size is therefore 100, hence positive, for ever. *)
Theorem settings_are_constant (evs : list event) :
  forall p p' : process,
    run evs p = Some p' ->
    settings (this p') = settings (this p) /\
    (forall (index : Store) (mounts : Mnt) (interval last : Z),
        p = construct index mounts interval last ->
        batch_size_ (this p') = 100 /\ batch_interval_ (this p') = interval).
Proof.
  induction evs as [|e rest IH]; intros p p' E; cbn [run] in E.
  - inversion E; subst p'. split; [reflexivity|].
    intros index mounts interval last ->. split; reflexivity.
  - destruct (happen e p) as [p1|] eqn:E1; [|discriminate].
    destruct (IH p1 p' E) as [S1 _].
    pose proof (happen_keeps_settings e p E1) as S0.
    assert (S : settings (this p') = settings (this p)) by congruence.
    split; [exact S|].
    intros index mounts interval last ->. unfold settings in S. cbn in S.
    now inversion S.
Qed.

Lemma worker_call_flush_entries (m : bool) (l : list file_record) :
  forallb worker_call (store_calls (flat_map (flush_entries m) l)) = true.
Proof. induction l as [|r l IH]; [reflexivity|exact IH]. Qed.

Lemma worker_step_calls (w : wakeup) (t1 t2 : Z) (pc pc' : worker_pc) (h h' : handler) :
  worker_step w t1 t2 pc h = Some (pc', h') ->
  exists new : list (entry file_record),
    journal h' = journal h ++ new /\ forallb worker_call (store_calls new) = true.
Proof.
  destruct pc; intros E.
  - destruct (mtx_ h) eqn:Hm.
    + cbn [worker_step] in E. unfold bind, lock in E. rewrite Hm in E. discriminate.
    + rewrite (worker_step_waiting w t1 t2 h Hm) in E. inversion E; subst.
      exists (wake_entries h ++ stop_check h). split; [reflexivity|].
      unfold wake_entries, stop_check.
      repeat match goal with |- context [if ?b then _ else _] => destruct b end;
        reflexivity.
  - rewrite worker_step_draining in E. inversion E; subst.
    eexists. split; [reflexivity|].
    rewrite !store_calls_app, !forallb_app, worker_call_flush_entries.
    destruct (index_manager.deletion_jobs_ready _); reflexivity.
  - inversion E; subst. exists []. now rewrite app_nil_r.
Qed.

(** X7. The worker thread keeps to its lane: however [worker_loop] is
    scheduled, it leaves the pending records, the mount manager and the
    shutdown flag as they were (it neither sets nor clears the flag), and of
    the index it calls only [add_index], [deletion_jobs_ready] and
    [process_deletion_jobs]. *)
Theorem worker_loop_keeps_to_its_lane (sched : list tick) :
  forall (pc pc' : worker_pc) (h h' : handler),
    worker_loop sched pc h = Some (pc', h') ->
    records_ h' = records_ h /\
    mnt_manager_ h' = mnt_manager_ h /\
    should_stop_ h' = should_stop_ h /\
    exists new : list (entry file_record),
      journal h' = journal h ++ new /\ forallb worker_call (store_calls new) = true.
Proof.
  intros pc pc' h h' E.
  pose proof (@worker_loop_keeps_beyond sched pc h pc' h' E) as K.
  unfold beyond_worker in K.
  split; [exact (f_equal (fun x => fst (fst (fst x))) K)|].
  split; [exact (f_equal (fun x => snd (fst (fst x))) K)|].
  split; [exact (f_equal (fun x => snd (fst x)) K)|].
  clear K. revert pc pc' h h' E.
  induction sched as [|[[w t1] t2] rest IH]; intros pc pc' h h' E;
    cbn [worker_loop worker_move] in E.
  - inversion E; subst. exists []. now rewrite app_nil_r.
  - unfold bind in E.
    destruct (worker_step w t1 t2 pc h) as [[pc1 h1]|] eqn:E1; [|discriminate].
    destruct (worker_step_calls _ _ _ _ _ E1) as (n1 & J1 & F1).
    destruct (IH _ _ _ _ E) as (n2 & J2 & F2).
    exists (n1 ++ n2). rewrite J2, J1, app_assoc. split; [reflexivity|].
    now rewrite store_calls_app, forallb_app, F1, F2.
Qed.

Lemma read_only_keeps (r : request) : read_only r = true -> keeps own_members (serve r).
Proof. destruct r; try discriminate; intros _; unfold_members; keeps_go. Qed.

Lemma read_only_emits (m : bool) (r : request) :
  read_only r = true -> emits (fun e => looks e = true) m m (serve r).
Proof.
  destruct r; try discriminate; intros _; unfold_members; emits_go; reflexivity.
Qed.

(** X8. The member functions that only look ([ignored_event],
    [record_size], [device_available], [fetch_mount_point_for_device],
    [get_index_directory], [search], [hasLFT], and the placeholder
    [index_files_in_directory]) leave the handler's own data members (both
    queues, the settings, the time of the last flush, the shutdown flag)
    and the mutex as they found them, whatever they return; and what they
    do on the way is to ask: the only calls they make into the index are
    [document_exists], [search] and [index_directory], the only calls into
    the mount manager are [path_match_type], [contains_device] and
    [get_mount_point], and besides that they read the size of the pending
    records; they hand nothing to the index, do not refresh the mount
    table, and neither notify nor drain. *)
Theorem read_only_only_looks (r : request) (h h' : handler) (x : reply) :
  read_only r = true -> serve r h = Some (x, h') ->
  own_members h' = own_members h /\ mtx_ h' = mtx_ h /\
  exists new : list (entry file_record),
    journal h' = journal h ++ new /\ forallb looks new = true.
Proof.
  intros Hr E. split; [exact (@read_only_keeps r Hr h x h' E)|].
  destruct (@read_only_emits (mtx_ h) r Hr h x h' eq_refl E) as (Hm & _ & new & J & F).
  split; [exact Hm|]. exists new. split; [exact J|].
  apply forallb_forall. intros e He.
  exact (proj1 (Forall_forall _ _) F e He).
Qed.

(** *** Draining the pending buffer to the end *)

Lemma firstn_plus (A : Type) (a b : nat) :
  forall l : list A, firstn (a + b) l = firstn a l ++ firstn b (skipn a l).
Proof.
  induction a as [|a IH]; intros l; [reflexivity|].
  destruct l as [|x l]; cbn [Nat.add firstn skipn app].
  - now rewrite firstn_nil.
  - now rewrite IH.
Qed.

Lemma skipn_plus (A : Type) (a b : nat) :
  forall l : list A, skipn (a + b) l = skipn b (skipn a l).
Proof.
  induction a as [|a IH]; intros l; [reflexivity|].
  destruct l as [|x l]; cbn [Nat.add skipn]; [now rewrite skipn_nil|apply IH].
Qed.

Lemma firstn_min_length (A : Type) (k : nat) (l : list A) :
  firstn (Nat.min k (List.length l)) l = firstn k l.
Proof.
  destruct (Nat.le_ge_cases k (List.length l)) as [H|H].
  - now rewrite Nat.min_l.
  - rewrite Nat.min_r by exact H. now rewrite firstn_all, firstn_all2.
Qed.

Lemma skipn_min_length (A : Type) (k : nat) (l : list A) :
  skipn (Nat.min k (List.length l)) l = skipn k l.
Proof.
  destruct (Nat.le_ge_cases k (List.length l)) as [H|H].
  - now rewrite Nat.min_l.
  - rewrite Nat.min_r by exact H. now rewrite skipn_all, skipn_all2.
Qed.

Lemma delay_all_app (l1 l2 : list file_record) (s : Store) :
  delay_all (l1 ++ l2) s = delay_all l2 (delay_all l1 s).
Proof. apply fold_left_app. Qed.

(** What one scheduled drain does, said with 500 in place of the minimum. *)
Lemma scheduled_facts (h : handler) :
  mtx_ h = false ->
  mtx_ (scheduled h) = false /\
  records_ (scheduled h) = skipn 500 (records_ h) /\
  index_manager_ (scheduled h) = delay_all (firstn 500 (records_ h)) (index_manager_ h) /\
  store_calls (journal (scheduled h)) =
    store_calls (journal h) ++
    map (@CallAddIndexDelay file_record) (firstn 500 (records_ h)) /\
  beyond_pending (scheduled h) = beyond_pending h.
Proof.
  intros Hm. unfold scheduled. destruct (records_ h) as [|r rs] eqn:Hr; proj_simpl.
  - rewrite store_calls_app. cbn. rewrite app_nil_r. auto.
  - rewrite firstn_min_length, skipn_min_length.
    rewrite !store_calls_app, store_calls_drain_entries. cbn [store_calls pick
      store_call_of act app]. rewrite app_nil_r. auto.
Qed.

Lemma run_scheduled_tasks_runs (n : nat) :
  forall h : handler,
    mtx_ h = false ->
    exists h' : handler,
      run_scheduled_tasks n h = Some (tt, h') /\
      mtx_ h' = false /\
      records_ h' = skipn (500 * n) (records_ h) /\
      index_manager_ h' =
        delay_all (firstn (500 * n) (records_ h)) (index_manager_ h) /\
      store_calls (journal h') =
        store_calls (journal h) ++
        map (@CallAddIndexDelay file_record) (firstn (500 * n) (records_ h)) /\
      beyond_pending h' = beyond_pending h.
Proof.
  unfold run_scheduled_tasks.
  induction n as [|n IH]; intros h Hm.
  - exists h. rewrite Nat.mul_0_r. cbn [for_loop firstn skipn map delay_all fold_left].
    rewrite app_nil_r. repeat split; auto.
  - destruct (scheduled_facts h Hm) as (M1 & R1 & I1 & C1 & B1).
    destruct (IH (scheduled h) M1) as (h' & E & M & R & I & C & B).
    exists h'. cbn [for_loop].
    erewrite bind_some; [|now apply run_scheduled_task_runs].
    replace (500 * S n) with (500 + 500 * n) by lia.
    split; [exact E|]. split; [exact M|].
    split; [now rewrite R, R1, skipn_plus|].
    split; [now rewrite I, R1, I1, firstn_plus, delay_all_app|].
    split; [now rewrite C, C1, R1, firstn_plus, map_app, app_assoc|].
    congruence.
Qed.

(** X9. [n] scheduled drains in a row, the first called with the mutex
    free, take the first [500 * n] pending records, hand exactly these to
    the index's delayed add in insertion order, and leave the rest at the
    front of the buffer; nothing outside the pending lane is touched.  As
    soon as [500 * n] reaches the size of the buffer, the buffer is empty
    and every record has been handed over once. *)
Theorem run_scheduled_tasks_drain (n : nat) (h : handler) :
  mtx_ h = false ->
  exists h' : handler,
    run_scheduled_tasks n h = Some (tt, h') /\
    records_ h = firstn (500 * n) (records_ h) ++ records_ h' /\
    store_calls (journal h') =
      store_calls (journal h) ++
      map (@CallAddIndexDelay file_record) (firstn (500 * n) (records_ h)) /\
    addition_jobs_ h' = addition_jobs_ h /\
    should_stop_ h' = should_stop_ h /\
    (List.length (records_ h) <= 500 * n ->
     records_ h' = [] /\
     store_calls (journal h') =
       store_calls (journal h) ++ map (@CallAddIndexDelay file_record) (records_ h)).
Proof.
  intros Hm. destruct (run_scheduled_tasks_runs n h Hm) as (h' & E & _ & R & _ & C & B).
  exists h'. split; [exact E|].
  split; [now rewrite R, firstn_skipn|]. split; [exact C|].
  unfold beyond_pending in B.
  split; [exact (f_equal (fun x => fst (fst (fst (fst x)))) B)|].
  split; [exact (f_equal (fun x => snd (fst (fst x))) B)|].
  intros Hl. split.
  - rewrite R. now apply skipn_all2.
  - rewrite C. now rewrite firstn_all2.
Qed.

(** X10. Round trip of the pending lane: records inserted with
    [insert_pending_records] are reported by [record_size], and enough
    scheduled drains afterwards hand the records that were pending before,
    followed by the inserted ones, to the index's delayed add, each once and
    in the order of insertion, leaving an empty buffer. *)
Theorem insert_then_drain (records : list file_record) (n : nat) (h : handler) :
  mtx_ h = false ->
  List.length (records_ h) + List.length records <= 500 * n ->
  exists h1 h2 h3 : handler,
    insert_pending_records records h = Some (tt, h1) /\
    record_size h1 = Some (List.length (records_ h) + List.length records, h2) /\
    run_scheduled_tasks n h1 = Some (tt, h3) /\
    records_ h3 = [] /\
    store_calls (journal h3) =
      store_calls (journal h) ++
      map (@CallAddIndexDelay file_record) (records_ h ++ records).
Proof.
  intros Hm Hl.
  set (h1 := with_journal (journal h ++ [Entry OnRecords false])
               (with_records (records_ h ++ records) h)).
  assert (E1 : insert_pending_records records h = Some (tt, h1)).
  { unfold insert_pending_records. unfold_m. now rewrite Hm. }
  assert (M1 : mtx_ h1 = false) by exact Hm.
  destruct (run_scheduled_tasks_runs n h1 M1) as (h3 & E3 & _ & R & _ & C & _).
  exists h1. eexists. exists h3.
  split; [exact E1|]. split.
  { unfold record_size. unfold_m. unfold h1. proj_simpl. now rewrite length_app. }
  split; [exact E3|].
  assert (L : List.length (records_ h1) <= 500 * n).
  { unfold h1. proj_simpl. now rewrite length_app. }
  split; [rewrite R; now apply skipn_all2|].
  rewrite C, firstn_all2 by exact L. unfold h1. proj_simpl.
  rewrite store_calls_app. cbn. now rewrite app_nil_r.
Qed.

(** *** Nothing is lost between the addition queue and the index *)

Lemma added_app (j1 j2 : list (entry file_record)) :
  added (j1 ++ j2) = added j1 ++ added j2.
Proof. apply pick_app. Qed.

Lemma added_none (new : list (entry file_record)) :
  Forall (fun e => added_of e = None) new -> added new = [].
Proof.
  intros F. induction F as [|e l He _ IH]; [reflexivity|].
  unfold added in *. cbn [pick]. now rewrite He.
Qed.

Lemma added_flush_entries (m : bool) (l : list file_record) :
  added (flat_map (flush_entries m) l) = l.
Proof. induction l as [|r l IH]; [reflexivity|]. cbn. f_equal. exact IH. Qed.

Lemma serve_adds_nothing (m : bool) (r : request) :
  emits (fun e => added_of e = None) m m (serve r).
Proof. destruct r; unfold_members; emits_go; reflexivity. Qed.

Lemma request_stop_adds_nothing (m : bool) :
  emits (fun e => added_of e = None) m m request_stop.
Proof. unfold_members; emits_go; reflexivity. Qed.

Lemma serve_queue (r : request) (h h' : handler) (x : reply) :
  serve r h = Some (x, h') ->
  addition_jobs_ h' = addition_jobs_ h ++ enqueued_by r.
Proof.
  intros E.
  assert (K : forall r0 : request,
             enqueued_by r0 = [] -> keeps addition_jobs_ (serve r0)).
  { intros r0. destruct r0; intros Hq; try discriminate Hq;
      unfold_members; keeps_go. }
  destruct r;
    try (cbn [enqueued_by]; rewrite app_nil_r;
         refine (K _ _ h x h' E); reflexivity).
  cbn [serve enqueued_by] in *.
  lazymatch type of E with
  | context [add_index_delay ?a] => set (rec := a) in *
  end.
  destruct (mtx_ h) eqn:Hm.
  - assert (N : add_index_delay rec h = None).
    { unfold add_index_delay, lock_guard. unfold bind at 1. unfold lock.
      now rewrite Hm. }
    unfold bind in E. rewrite N in E. discriminate.
  - unfold bind in E. rewrite (add_index_delay_runs rec h Hm) in E.
    unfold ret in E. now inversion E.
Qed.

Lemma serve_lane (r : request) (h h' : handler) (x : reply) :
  serve r h = Some (x, h') -> lane h' = lane h ++ enqueued_by r.
Proof.
  intros E. unfold lane.
  destruct (@serve_adds_nothing (mtx_ h) r h x h' eq_refl E) as (_ & _ & new & J & F).
  rewrite J, added_app, (added_none F), app_nil_r, (serve_queue r h E).
  apply app_assoc.
Qed.

Lemma worker_step_lane (w : wakeup) (t1 t2 : Z) (pc pc' : worker_pc) (h h' : handler) :
  worker_step w t1 t2 pc h = Some (pc', h') -> lane h' = lane h.
Proof.
  unfold lane. destruct pc; intros E.
  - destruct (mtx_ h) eqn:Hm.
    + cbn [worker_step] in E. unfold bind, lock in E. rewrite Hm in E. discriminate.
    + rewrite (worker_step_waiting w t1 t2 h Hm) in E. inversion E; subst.
      unfold woken. proj_simpl. rewrite added_app.
      assert (N : added (wake_entries h ++ stop_check h) = []).
      { unfold wake_entries, stop_check.
        repeat match goal with |- context [if ?b then _ else _] => destruct b end;
          reflexivity. }
      now rewrite N, app_nil_r.
  - rewrite worker_step_draining in E. inversion E; subst.
    unfold eaten. proj_simpl.
    rewrite !added_app, added_flush_entries.
    assert (N : forall m b, added (deletion_entries m b) = [])
      by (intros m b; destruct b; reflexivity).
    rewrite N, app_nil_r. cbn [added pick added_of act app].
    rewrite <- app_assoc. now rewrite firstn_skipn.
  - now inversion E.
Qed.

Lemma worker_run_lane (t : tick) (p p' : process) :
  worker_run t p = Some p' -> lane (this p') = lane (this p).
Proof.
  unfold worker_run. destruct t as [[w t1] t2]. cbn [worker_move]. intros E.
  destruct (worker_step w t1 t2 (at_ (worker_ p)) (this p)) as [[pc h]|] eqn:Es;
    [|discriminate].
  inversion E; subst p'. cbn [this]. now apply worker_step_lane in Es.
Qed.

Lemma join_lane (sched : list tick) :
  forall p p' : process, join sched p = Some p' -> lane (this p') = lane (this p).
Proof.
  induction sched as [|t rest IH]; intros p p' E; cbn [join] in E.
  - destruct (at_ (worker_ p)); try discriminate. now inversion E.
  - destruct (at_ (worker_ p)).
    + destruct (worker_run t p) as [p1|] eqn:E1; [|discriminate].
      rewrite (IH p1 p' E). now apply worker_run_lane with t.
    + destruct (worker_run t p) as [p1|] eqn:E1; [|discriminate].
      rewrite (IH p1 p' E). now apply worker_run_lane with t.
    + now inversion E.
Qed.

Lemma happen_lane (e : event) (p p' : process) :
  happen e p = Some p' ->
  lane (this p') =
    lane (this p) ++ match e with ByCaller r => enqueued_by r | _ => [] end.
Proof.
  destruct e as [r|sched|t]; cbn [happen]; intros E.
  - destruct (serve r (this p)) as [[x h]|] eqn:Es; [|discriminate].
    inversion E; subst p'. cbn [this]. now apply serve_lane in Es.
  - rewrite app_nil_r. unfold terminate_processing in E.
    destruct (request_stop (this p)) as [[[] h]|] eqn:Es; [|discriminate].
    assert (L : lane h = lane (this p)).
    { unfold lane.
      destruct (@request_stop_adds_nothing (mtx_ (this p)) (this p) tt h eq_refl Es)
        as (_ & _ & new & J & F).
      assert (K : keeps addition_jobs_ request_stop) by (unfold_members; keeps_go).
      now rewrite J, added_app, (added_none F), app_nil_r, (K _ _ _ Es). }
    cbn [worker_] in E. destruct (joinable (worker_ p)).
    + apply join_lane in E. cbn [this] in E. congruence.
    + inversion E; subst p'. exact L.
  - rewrite app_nil_r. now apply worker_run_lane with t.
Qed.

(** X11. No record of the addition lane is lost, duplicated or reordered:
    in every run of the process, the records handed to [add_index] so far,
    followed by those still in the addition queue, are the ones there at the
    start followed by the ones enqueued with [add_index_delay], in the order
    of the calls. *)
Theorem addition_lane_is_conserved (evs : list event) :
  forall p p' : process,
    run evs p = Some p' ->
    added (journal (this p')) ++ addition_jobs_ (this p') =
    (added (journal (this p)) ++ addition_jobs_ (this p)) ++ enqueued evs.
Proof.
  induction evs as [|e rest IH]; intros p p' E; cbn [run] in E.
  - inversion E; subst p'. cbn [enqueued flat_map]. now rewrite app_nil_r.
  - destruct (happen e p) as [p1|] eqn:E1; [|discriminate].
    specialize (IH p1 p' E). apply happen_lane in E1. unfold lane in E1.
    rewrite IH, E1. cbn [enqueued flat_map]. now rewrite !app_assoc.
Qed.

(** *** The flush timer *)

Lemma eaten_idle (now_checked now_stored : Z) (h : handler) :
  flush_due now_checked h = false ->
  addition_jobs_ (eaten now_checked now_stored h) = addition_jobs_ h /\
  last_addition_time_ (eaten now_checked now_stored h) = last_addition_time_ h /\
  added (journal (eaten now_checked now_stored h)) = added (journal h).
Proof.
  intros Hd. unfold eaten, index_after_flush, flush_count. rewrite Hd. proj_simpl.
  cbn [firstn skipn flat_map add_all fold_left].
  split; [reflexivity|]. split; [reflexivity|].
  rewrite !added_app. cbn [added pick added_of act app].
  destruct (index_manager.deletion_jobs_ready (index_manager_ h)); cbn;
    now rewrite app_nil_r.
Qed.

(** X12. A cycle of the worker whose flush is due by time stamps the time
    of the last flush even when the addition queue is empty: nothing is
    added to the index, and the interval starts anew. *)
Theorem eat_jobs_stamps_an_empty_flush (now_checked now_stored : Z) (h : handler) :
  addition_jobs_ h = [] ->
  (batch_interval_ h <= now_checked - last_addition_time_ h)%Z ->
  exists h' : handler,
    eat_jobs now_checked now_stored h = Some (tt, h') /\
    last_addition_time_ h' = now_stored /\
    addition_jobs_ h' = [] /\
    added (journal h') = added (journal h).
Proof.
  intros Hq Ht. exists (eaten now_checked now_stored h).
  split; [apply eat_jobs_runs|].
  assert (Hd : flush_due now_checked h = true).
  { unfold flush_due. apply orb_true_iff. right. now apply Z.leb_le. }
  unfold eaten, index_after_flush, flush_count. rewrite Hd, Hq. proj_simpl.
  rewrite Nat.min_0_r. cbn [firstn skipn flat_map add_all fold_left].
  split; [reflexivity|]. split; [reflexivity|].
  rewrite !added_app. cbn [added pick added_of act app].
  destruct (index_manager.deletion_jobs_ready (index_manager_ h)); cbn;
    now rewrite app_nil_r.
Qed.

(** X13. Debounce: after a cycle that flushed, a second cycle that starts
    before the interval has passed since the stored time stamp, with no
    more than [batch_size_] jobs left in the queue, flushes nothing and
    leaves the time stamp alone. *)
Theorem eat_jobs_debounces (now1 stored1 now2 stored2 : Z) (h : handler) :
  flush_due now1 h = true ->
  (now2 - stored1 < batch_interval_ h)%Z ->
  List.length (addition_jobs_ h) <= 2 * batch_size_ h ->
  exists h1 h2 : handler,
    eat_jobs now1 stored1 h = Some (tt, h1) /\
    eat_jobs now2 stored2 h1 = Some (tt, h2) /\
    addition_jobs_ h2 = addition_jobs_ h1 /\
    last_addition_time_ h2 = stored1 /\
    added (journal h2) = added (journal h1).
Proof.
  intros Hd Ht Hl.
  exists (eaten now1 stored1 h), (eaten now2 stored2 (eaten now1 stored1 h)).
  split; [apply eat_jobs_runs|]. split; [apply eat_jobs_runs|].
  assert (Idle : flush_due now2 (eaten now1 stored1 h) = false).
  { unfold flush_due, eaten, index_after_flush, flush_count. rewrite Hd. proj_simpl.
    apply orb_false_iff. split.
    - apply Nat.ltb_ge. rewrite length_skipn.
      apply Nat.min_case_strong; intros; lia.
    - apply Z.leb_gt. exact Ht. }
  destruct (eaten_idle now2 stored2 _ Idle) as (A & L & D).
  split; [exact A|]. split; [|exact D].
  rewrite L. unfold eaten. proj_simpl. now rewrite Hd.
Qed.

End Engine.
End base_event_handler.

(** ** The handler over the reference index *)

Module reference.
Import model.
Import base_event_handler.

(** The object and the process over the reference collaborators. *)
Definition handler : Type :=
  @base_event_handler.handler model.file_record model.store model.mounts.
Definition process : Type :=
  @base_event_handler.process model.file_record model.store model.mounts.

Definition record_of (path : string) : model.file_record := model.FileRecord path 0 0.

(** A freshly constructed object over an empty index and no mounts, with
    a flush interval of 1000 ticks. *)
Definition fresh : process :=
  construct (model.empty_store "/var/cache/index") (model.Mounts [] []) 1000 0.

(** The disk holds "/a" only. *)
Definition generate : string -> option model.file_record :=
  model.generate_file_record ["/a"%string].

(** Six hundred pending records. *)
Definition bulk : handler :=
  with_records (repeat (record_of "/bulk") 600) (this fresh).

(** An object whose index already lists "/a". *)
Definition indexed : handler :=
  with_index_manager (index_manager.add_index (record_of "/a") (index_manager_ (this fresh)))
    (this fresh).

(** An object with 101 jobs in the addition queue, one more than the
    batch size. *)
Definition loaded : handler :=
  with_addition_jobs (repeat (record_of "/job") 101) (this fresh).

(** A running process with one record waiting in the addition queue. *)
Definition busy : process :=
  Process (with_addition_jobs [record_of "/a"] (this fresh)) (worker_ fresh).

(** The same object with the worker in the middle of a drain: it holds
    the mutex. *)
Definition draining : process :=
  Process (with_mtx true (this busy)) (Thread Draining true).

(** A sequence of calls, worker moves and a shutdown. *)
Definition day : list event :=
  [ByCaller (ReqAddIndexDelay (record_of "/b"));
   ByCaller (ReqInsertPendingRecords [record_of "/c"; record_of "/d"]);
   ByWorker (TimedOut, 5000%Z, 5001%Z);
   ByWorker (Notified, 5002%Z, 5003%Z);
   ByCaller ReqRunScheduledTask;
   ByCaller (ReqRemoveIndexDelay "/b");
   ByCaller (ReqAddIndexDelay (record_of "/e"));
   ByWorker (Notified, 5004%Z, 5005%Z);
   ByWorker (Notified, 5006%Z, 5007%Z);
   ByTerminate [(Notified, 5008%Z, 5009%Z)];
   ByCaller (ReqAddIndexDelay (record_of "/f"))].

Lemma not_listed_without (path : string) (docs : list string) :
  existsb (String.eqb path) (model.without path docs) = false.
Proof.
  induction docs as [|d docs IH]; [reflexivity|].
  unfold model.without in *. cbn [filter].
  destruct (String.eqb d path) eqn:E; cbn [negb]; [exact IH|].
  cbn [existsb]. rewrite IH, String.eqb_sym, E. reflexivity.
Qed.

Lemma not_queued_unqueue (path : string) (l : list model.file_record) :
  existsb (fun r => String.eqb path (model.full_path r)) (model.unqueue path l) = false.
Proof.
  induction l as [|r l IH]; [reflexivity|].
  unfold model.unqueue in *. cbn [filter].
  destruct (String.eqb (model.full_path r) path) eqn:E; cbn [negb]; [exact IH|].
  cbn [existsb]. rewrite IH, String.eqb_sym, E. reflexivity.
Qed.

Lemma removed_is_gone (path : string) (s : model.store) :
  index_manager.document_exists path (index_manager.remove_index path s) = false.
Proof.
  cbn. now rewrite not_listed_without, not_queued_unqueue.
Qed.

Lemma queued_exists (path : string) (s : model.store) :
  index_manager.document_exists path
    (index_manager.add_index_delay (model.FileRecord path 0 0) s) = true.
Proof.
  cbn. rewrite existsb_app. cbn. rewrite String.eqb_refl.
  rewrite orb_true_r. apply orb_true_r.
Qed.

(** C5. Over an index whose immediate removal takes effect at once:
    whatever the state of the object and whether or not the path was
    indexed, [removePath] asks the index to remove the path, then asks
    whether the document exists, and returns [true]; [hasLFT] asked next
    returns [false]. *)
Theorem removePath_leaves_no_record (fullPath : string) (h : handler) :
  mtx_ h = false ->
  exists h' h'' : handler,
    removePath fullPath h = Some (true, h') /\
    store_calls (journal h') =
      store_calls (journal h) ++ [CallRemoveIndex fullPath; CallDocumentExists fullPath] /\
    index_manager_ h' = index_manager.remove_index fullPath (index_manager_ h) /\
    removePath fullPath h =
      Some (negb (index_manager.document_exists fullPath (index_manager_ h')), h') /\
    hasLFT fullPath h' = Some (false, h'').
Proof.
  intros Hm.
  assert (Gone : index_manager.document_exists fullPath
                   (index_manager.remove_index fullPath (index_manager_ h)) = false)
    by apply removed_is_gone.
  eexists. eexists.
  split; [rewrite (removePath_runs fullPath h Hm); cbv zeta; now rewrite Gone|].
  split; [cbn [journal with_journal]; now rewrite store_calls_app|].
  split; [reflexivity|].
  split; [rewrite (removePath_runs fullPath h Hm); reflexivity|].
  rewrite hasLFT_runs by exact Hm.
  cbn [index_manager_ with_journal with_index_manager]. now rewrite Gone.
Qed.

(** C4. Over an index whose [document_exists] counts the queued
    additions, and a generator that yields a record exactly for the paths
    present on disk: when no record is generated, [addPath] returns [false]
    and leaves the whole object, the index included, as it was, so that
    [hasLFT] answers as before; when a record is generated, [addPath] hands
    it to the index's delayed add, returns what the index then answers to
    [document_exists] for the path, and that answer is [true]; [hasLFT]
    asked next returns [true]. *)
Theorem addPath_records_the_path (present : list string) (fullPath : string)
    (h : handler) :
  mtx_ h = false ->
  match model.generate_file_record present fullPath with
  | None =>
      addPath (model.generate_file_record present) fullPath h = Some (false, h)
  | Some record =>
      exists h' h'' : handler,
        addPath (model.generate_file_record present) fullPath h = Some (true, h') /\
        index_manager_ h' = index_manager.add_index_delay record (index_manager_ h) /\
        store_calls (journal h') =
          store_calls (journal h) ++
          [CallAddIndexDelay record; CallDocumentExists fullPath] /\
        addPath (model.generate_file_record present) fullPath h =
          Some (index_manager.document_exists fullPath (index_manager_ h'), h') /\
        hasLFT fullPath h' = Some (true, h'')
  end.
Proof.
  intros Hm.
  destruct (model.generate_file_record present fullPath) as [record|] eqn:Hg.
  - assert (Hr : record = model.FileRecord fullPath 0 0).
    { unfold model.generate_file_record in Hg.
      destruct (existsb (String.eqb fullPath) present); now inversion Hg. }
    assert (There : index_manager.document_exists fullPath
                      (index_manager.add_index_delay record (index_manager_ h)) = true)
      by (rewrite Hr; apply queued_exists).
    pose proof (@addPath_runs _ _ _ _ (model.generate_file_record present)
                  fullPath record h Hm Hg) as E.
    cbv zeta in E. eexists. eexists.
    split; [rewrite E; now rewrite There|].
    split; [reflexivity|].
    split; [cbn [journal with_journal]; now rewrite store_calls_app|].
    split; [exact E|].
    rewrite hasLFT_runs by exact Hm.
    cbn [index_manager_ with_journal with_index_manager]. now rewrite There.
  - unfold addPath. cbv zeta. now rewrite Hg.
Qed.

(** *** Concrete runs *)

Lemma run_scheduled_task_drains_witness :
  exists h' h'' : handler,
    run_scheduled_task bulk = Some (tt, h') /\
    record_size h' = Some (100, h'').
Proof.
  destruct (@run_scheduled_task_drains _ _ _ _ bulk eq_refl)
    as (h' & E & _ & _ & _ & _ & R & _).
  exists h'. eexists. split; [exact E|exact R].
Defined.

Lemma eat_jobs_cycle_witness :
  exists (h' : handler) (flushed_jobs : list model.file_record),
    eat_jobs 10 11 loaded = Some (tt, h') /\
    repeat (record_of "/job") 101 = flushed_jobs ++ addition_jobs_ h' /\
    List.length flushed_jobs = 100 /\
    last_addition_time_ h' = 11%Z.
Proof.
  destruct (eat_jobs_cycle 10 11 loaded) as (h' & l & E & A & C & _).
  exists h', l. split; [exact E|]. split; [exact A|exact C].
Defined.

Lemma ignored_event_decides_witness :
  ignored_event "x.longname" true (this fresh) = Some (true, this fresh) /\
  ignored_event "/home/u/notes.txt" true (this fresh) = Some (false, this fresh).
Proof.
  split.
  - exact (proj2 (ignored_event_decides "x.longname" true (this fresh))).
  - exact (proj2 (ignored_event_decides "/home/u/notes.txt" true (this fresh))).
Defined.

Lemma addPath_records_the_path_witness :
  (exists h' h'' : handler,
     addPath generate "/a" (this fresh) = Some (true, h') /\
     hasLFT "/a" (this fresh) <> hasLFT "/a" h' /\
     hasLFT "/a" h' = Some (true, h'')) /\
  addPath generate "/gone" (this fresh) = Some (false, this fresh).
Proof.
  split.
  - destruct (addPath_records_the_path ["/a"%string] "/a" (this fresh) eq_refl)
      as (h' & h'' & E & _ & _ & _ & L).
    exists h', h''. split; [exact E|]. split; [|exact L].
    rewrite L. discriminate.
  - exact (addPath_records_the_path ["/a"%string] "/gone" (this fresh) eq_refl).
Defined.

Lemma removePath_leaves_no_record_witness :
  hasLFT "/a" indexed <> hasLFT "/a" (this fresh) /\
  exists h' h'' : handler,
    removePath "/a" indexed = Some (true, h') /\
    hasLFT "/a" h' = Some (false, h'').
Proof.
  split; [discriminate|].
  destruct (removePath_leaves_no_record "/a" indexed eq_refl)
    as (h' & h'' & E & _ & _ & _ & L).
  exists h', h''. split; [exact E|exact L].
Defined.

Lemma search_checks_offset_witness :
  search "/" "a" (-1) 10 indexed = Some ([], indexed) /\
  exists h' : handler, search "/" "a" 0 10 indexed = Some (["/a"%string], h').
Proof.
  split.
  - apply (proj1 (search_checks_offset "/" "a" (-1) 10 indexed)). reflexivity.
  - eexists.
    refine (proj2 (search_checks_offset "/" "a" 0 10 indexed) _ eq_refl). discriminate.
Defined.

Lemma terminate_processing_joins_witness :
  exists p1 p3 q0 : process,
    terminate_processing [(Notified, 0%Z, 0%Z)] busy = Some p1 /\
    worker_ p1 = Thread Stopped false /\
    should_stop_ (this p1) = true /\
    drain_cycles (journal (this p1)) = 0 /\
    run generate
      [ByCaller (ReqAddIndexDelay (record_of "/b")); ByWorker (TimedOut, 5000%Z, 5000%Z);
       ByTerminate []] p1 = Some p3 /\
    worker_ p3 = Thread Stopped false /\
    drain_cycles (journal (this p3)) = 0 /\
    addition_jobs_ (this p3) = [record_of "/a"; record_of "/b"] /\
    terminate_processing [] busy = None /\
    this p1 = woken Notified (stop_requested (this busy)) /\
    terminate_processing [(Notified, 0%Z, 0%Z)] draining = None /\
    worker_run (Notified, 5000%Z, 5001%Z) draining = Some q0 /\
    mtx_ (this q0) = false /\ at_ (worker_ q0) = Waiting /\
    drain_cycles (journal (this q0)) = 1.
Proof.
  assert (C : consistent busy) by (split; [reflexivity|discriminate]).
  assert (Cd : consistent draining) by (split; [reflexivity|discriminate]).
  destruct (@terminate_processing_joins _ _ _ _ _ generate busy (Notified, 0%Z, 0%Z) []
              C eq_refl)
    as (p1 & E & S1 & W1 & _ & _ & D1 & _ & A1 & _ & _ & After & Wait & _ & Mid).
  destruct (After [ByCaller (ReqAddIndexDelay (record_of "/b"));
                   ByWorker (TimedOut, 5000%Z, 5000%Z); ByTerminate []])
    as (p3 & E3 & W3 & _ & D3 & A3).
  destruct (Wait eq_refl eq_refl) as (N & P).
  destruct (Mid draining (Notified, 5000%Z, 5001%Z) Cd eq_refl)
    as (Nd & q0 & Eq & _ & Mq & Aq & Dq).
  exists p1, p3, q0.
  split; [exact E|]. split; [exact W1|]. split; [exact S1|]. split; [exact D1|].
  split; [exact E3|]. split; [exact W3|]. split; [now rewrite D3|].
  split; [rewrite A3, A1; reflexivity|].
  split; [exact N|]. split; [exact P|]. split; [exact Nd|]. split; [exact Eq|].
  split; [exact Mq|]. split; [exact Aq|]. exact Dq.
Defined.

Lemma worker_leaves_waiting_witness :
  exists h1 h2 : handler,
    worker_step TimedOut 5000 5001 Waiting (this busy) = Some (Draining, h1) /\
    worker_step Notified 5000 5001 Draining h1 = Some (Waiting, h2) /\
    drain_cycles (journal h2) = 1.
Proof.
  destruct (@worker_leaves_waiting _ _ _ _ TimedOut 5000%Z 5001%Z (this busy) eq_refl)
    as (h1 & E & _ & _ & _ & X).
  change (should_stop_ (this busy) = false /\
          (wake_condition (this busy) = true \/ TimedOut = TimedOut) /\
          forall (w' : wakeup) (t1' t2' : Z),
          exists h2 : handler,
            worker_step w' t1' t2' Draining h1 = Some (Waiting, h2) /\
            h2 = with_mtx false (eaten t1' t2' h1) /\
            drain_cycles (journal h2) = S (drain_cycles (journal (this busy)))) in X.
  destruct X as (_ & _ & Next).
  destruct (Next Notified 5000%Z 5001%Z) as (h2 & E2 & _ & D2).
  exists h1, h2. split; [exact E|]. split; [exact E2|exact D2].
Defined.

Lemma lock_discipline_witness :
  exists h' : handler,
    serve generate (ReqAddIndexDelay (record_of "/a")) (this fresh) = Some (Done, h') /\
    exists new : list (entry model.file_record),
      journal h' = journal (this fresh) ++ new /\ Forall under_lock new.
Proof.
  eexists. split; [vm_compute; reflexivity|].
  refine (proj1 (@lock_discipline _ _ _ _ _ generate)
            (ReqAddIndexDelay (record_of "/a")) (this fresh) Done _ eq_refl _).
  vm_compute. reflexivity.
Defined.

Lemma search_is_always_fuzzy_witness :
  exists (p' : process) (new : list (entry model.file_record)),
    run generate [ByCaller (ReqSearch "/" "a" 0 10); ByWorker (TimedOut, 5000%Z, 5000%Z)]
      busy = Some p' /\
    journal (this p') = journal (this busy) ++ new /\
    forall (path keywords : string) (offset max_count : Z) (fuzzy b : bool),
      In (Entry (OnStore (CallSearch path keywords offset max_count fuzzy)) b) new ->
      fuzzy = true.
Proof.
  assert (C : consistent busy) by (split; [reflexivity|discriminate]).
  eexists.
  assert (E : run generate
                [ByCaller (ReqSearch "/" "a" 0 10); ByWorker (TimedOut, 5000%Z, 5000%Z)]
                busy = Some _) by reflexivity.
  destruct (proj2 (@search_is_always_fuzzy _ _ _ _ _ generate) _ _ _ C E)
    as (new & J & F).
  exists new. split; [exact E|]. split; [exact J|exact F].
Defined.

(** *** Where the code departs from the wording *)

(** With the stop flag set, the worker leaves [Waiting] for [Stopped]; the
    record in the queue is not drained. *)
Lemma stop_request_skips_the_drain :
  (exists h' : handler,
     worker_step Notified 0 0 Waiting (with_should_stop true (this busy))
       = Some (Stopped, h') /\
     drain_cycles (journal h') = 0 /\
     addition_jobs_ h' = [record_of "/a"]) /\
  ~ leaving_wait_drains (file_record:=model.file_record) (Store:=model.store)
      (Mnt:=model.mounts).
Proof.
  split; [eexists; split; [reflexivity|split; reflexivity]|].
  intros H.
  assert (E : exists h' : handler,
             worker_step Notified 0 0 Waiting (with_should_stop true (this busy))
               = Some (Stopped, h')) by (eexists; reflexivity).
  destruct E as (h' & E).
  specialize (H Notified 0%Z 0%Z (with_should_stop true (this busy)) h' Stopped
                eq_refl E).
  assert (X : Stopped = Draining) by (apply H; discriminate).
  discriminate X.
Qed.

(** [insert_pending_records] appends to the pending records without the
    mutex. *)
Lemma pending_records_bypass_the_lock :
  (exists h' : handler,
     insert_pending_records [record_of "/a"] (this fresh) = Some (tt, h') /\
     journal h' = [Entry OnRecords false] /\
     records_ h' = [record_of "/a"]) /\
  ~ every_access_locked (Store:=model.store) (Mnt:=model.mounts) generate.
Proof.
  split; [eexists; split; [reflexivity|split; reflexivity]|].
  intros H.
  specialize (H (ReqInsertPendingRecords [record_of "/a"]) (this fresh) Done _
                [Entry OnRecords false] eq_refl eq_refl eq_refl).
  inversion H as [|e l G _]. discriminate G.
Qed.

(** *** More concrete runs *)

Lemma add_index_delay_enqueues_witness :
  exists h' : handler,
    add_index_delay (record_of "/late") loaded = Some (tt, h') /\
    List.length (addition_jobs_ h') = 102 /\
    notifications (journal h') = 1 /\
    wake_condition h' = true.
Proof.
  destruct (add_index_delay_enqueues (record_of "/late") loaded eq_refl)
    as (h' & E & A & _ & _ & _ & _ & N & W).
  exists h'. split; [exact E|]. split; [now rewrite A|].
  split; [exact N|exact (W eq_refl)].
Defined.

Lemma remove_index_delay_forwards_witness :
  exists h' : handler,
    remove_index_delay "/a" indexed = Some (tt, h') /\
    notifications (journal h') = 1 /\
    wake_condition h' = true /\
    index_manager.document_exists "/a" (index_manager_ h') = true.
Proof.
  destruct (remove_index_delay_forwards "/a" indexed eq_refl)
    as (h' & E & I & _ & N & W & _).
  exists h'. split; [exact E|]. split; [exact N|]. split; [exact (W eq_refl)|].
  now rewrite I.
Defined.

Lemma run_scheduled_task_notifies_witness :
  run_scheduled_task (with_mtx true (this fresh)) =
    Some (tt, with_journal [Entry OnRecords true; Entry NotifyOne true]
                (with_mtx true (this fresh))) /\
  exists h' : handler,
    run_scheduled_task bulk = Some (tt, h') /\ notifications (journal h') = 1.
Proof.
  split.
  - exact (proj1 (run_scheduled_task_notifies (with_mtx true (this fresh))) eq_refl).
  - exact (proj2 (run_scheduled_task_notifies bulk) eq_refl).
Defined.

Lemma serve_releases_the_mutex_witness :
  exists (x : reply) (h' : handler),
    serve generate (ReqRemovePath "/a") indexed = Some (x, h') /\ mtx_ h' = false.
Proof. exact (serve_releases_the_mutex generate (ReqRemovePath "/a") indexed eq_refl). Defined.

Lemma serve_while_locked_witness :
  serve generate (ReqAddIndexDelay (record_of "/a")) (with_mtx true bulk) = None /\
  serve generate ReqRunScheduledTask (with_mtx true bulk) = None /\
  serve generate (ReqAddPath "/a") (with_mtx true bulk) = None /\
  (exists (x : reply) (h' : handler),
     serve generate (ReqAddPath "/gone") (with_mtx true bulk) = Some (x, h') /\
     mtx_ h' = true) /\
  (exists (x : reply) (h' : handler),
     serve generate ReqRecordSize (with_mtx true bulk) = Some (x, h') /\
     mtx_ h' = true).
Proof.
  split; [exact (serve_while_locked generate (ReqAddIndexDelay (record_of "/a"))
                   (with_mtx true bulk) eq_refl)|].
  split; [exact (serve_while_locked generate ReqRunScheduledTask
                   (with_mtx true bulk) eq_refl)|].
  split; [exact (serve_while_locked generate (ReqAddPath "/a")
                   (with_mtx true bulk) eq_refl)|].
  split; [exact (serve_while_locked generate (ReqAddPath "/gone")
                   (with_mtx true bulk) eq_refl)|].
  exact (serve_while_locked generate ReqRecordSize (with_mtx true bulk) eq_refl).
Defined.

Lemma settings_are_constant_witness :
  exists p' : process,
    run generate day fresh = Some p' /\
    batch_size_ (this p') = 100 /\ batch_interval_ (this p') = 1000%Z.
Proof.
  assert (E : exists p' : process, run generate day fresh = Some p')
    by (eexists; vm_compute; reflexivity).
  destruct E as (p' & E). exists p'. split; [exact E|].
  exact (proj2 (settings_are_constant generate day fresh E) _ _ _ _ eq_refl).
Defined.

Lemma worker_loop_keeps_to_its_lane_witness :
  exists (pc' : worker_pc) (h' : handler),
    worker_loop [(TimedOut, 5000%Z, 5001%Z); (Notified, 5002%Z, 5003%Z)]
      Waiting (this busy) = Some (pc', h') /\
    addition_jobs_ h' = [] /\
    records_ h' = records_ (this busy) /\
    should_stop_ h' = false.
Proof.
  assert (E : exists (pc' : worker_pc) (h' : handler),
             worker_loop [(TimedOut, 5000%Z, 5001%Z); (Notified, 5002%Z, 5003%Z)]
               Waiting (this busy) = Some (pc', h') /\ addition_jobs_ h' = [])
    by (eexists; eexists; split; vm_compute; reflexivity).
  destruct E as (pc' & h' & E & A). exists pc', h'.
  destruct (worker_loop_keeps_to_its_lane _ _ _ E) as (R & _ & S & _).
  split; [exact E|]. split; [exact A|]. split; [exact R|exact S].
Defined.

Lemma read_only_only_looks_witness :
  exists h' : handler,
    serve generate (ReqSearch "/" "a" 0 10) indexed = Some (Hits ["/a"%string], h') /\
    own_members h' = own_members indexed /\ mtx_ h' = false /\
    journal h' =
      journal indexed ++ [Entry (OnStore (CallSearch "/" "a" 0 10 true)) true].
Proof.
  assert (E : exists h' : handler,
             serve generate (ReqSearch "/" "a" 0 10) indexed
             = Some (Hits ["/a"%string], h'))
    by (eexists; vm_compute; reflexivity).
  destruct E as (h' & E). exists h'. split; [exact E|].
  destruct (read_only_only_looks generate (ReqSearch "/" "a" 0 10) indexed eq_refl E)
    as (O & M & _).
  split; [exact O|]. split; [exact M|].
  revert E. vm_compute. intros E. inversion E. reflexivity.
Defined.

Lemma run_scheduled_tasks_drain_witness :
  exists h1 h2 : handler,
    run_scheduled_tasks 1 bulk = Some (tt, h1) /\
    List.length (records_ h1) = 100 /\
    run_scheduled_tasks 2 bulk = Some (tt, h2) /\
    records_ h2 = [].
Proof.
  destruct (run_scheduled_tasks_drain 1 bulk eq_refl) as (h1 & E1 & R1 & _).
  destruct (run_scheduled_tasks_drain 2 bulk eq_refl) as (h2 & E2 & _ & _ & _ & _ & D).
  exists h1, h2. split; [exact E1|]. split.
  - apply (f_equal (@List.length model.file_record)) in R1.
    rewrite length_app in R1.
    change (600 = 500 + List.length (records_ h1)) in R1. lia.
  - split; [exact E2|]. apply D. apply Nat.leb_le. reflexivity.
Defined.

Lemma insert_then_drain_witness :
  exists h1 h2 h3 : handler,
    insert_pending_records [record_of "/c"; record_of "/d"] (this fresh) = Some (tt, h1) /\
    record_size h1 = Some (2, h2) /\
    run_scheduled_tasks 1 h1 = Some (tt, h3) /\
    records_ h3 = [] /\
    store_calls (journal h3) =
      [CallAddIndexDelay (record_of "/c"); CallAddIndexDelay (record_of "/d")].
Proof.
  refine (insert_then_drain [record_of "/c"; record_of "/d"] 1 (this fresh) eq_refl _).
  apply Nat.leb_le. reflexivity.
Defined.

Lemma addition_lane_is_conserved_witness :
  exists p' : process,
    run generate day busy = Some p' /\
    added (journal (this p')) ++ addition_jobs_ (this p') =
      [record_of "/a"; record_of "/b"; record_of "/e"; record_of "/f"] /\
    addition_jobs_ (this p') = [record_of "/e"; record_of "/f"].
Proof.
  assert (E : exists p' : process,
             run generate day busy = Some p' /\
             addition_jobs_ (this p') = [record_of "/e"; record_of "/f"])
    by (eexists; split; vm_compute; reflexivity).
  destruct E as (p' & E & A). exists p'. split; [exact E|]. split; [|exact A].
  exact (addition_lane_is_conserved generate day busy E).
Defined.

Lemma eat_jobs_stamps_an_empty_flush_witness :
  exists h' : handler,
    eat_jobs 5000 5001 (this fresh) = Some (tt, h') /\
    last_addition_time_ h' = 5001%Z /\ addition_jobs_ h' = [].
Proof.
  assert (T : (batch_interval_ (this fresh)
               <= 5000 - last_addition_time_ (this fresh))%Z) by discriminate.
  destruct (eat_jobs_stamps_an_empty_flush 5000 5001 (this fresh) eq_refl T)
    as (h' & E & L & A & _).
  exists h'. split; [exact E|]. split; [exact L|exact A].
Defined.

Lemma eat_jobs_debounces_witness :
  exists h1 h2 : handler,
    eat_jobs 10 11 loaded = Some (tt, h1) /\
    eat_jobs 500 501 h1 = Some (tt, h2) /\
    List.length (addition_jobs_ h2) = 1 /\
    last_addition_time_ h2 = 11%Z.
Proof.
  assert (L : List.length (addition_jobs_ loaded) <= 2 * batch_size_ loaded)
    by (apply Nat.leb_le; reflexivity).
  destruct (eat_jobs_debounces 10 11 500 501 loaded eq_refl eq_refl L)
    as (h1 & h2 & E1 & E2 & A & T & _).
  exists h1, h2. split; [exact E1|]. split; [exact E2|]. split; [|exact T].
  rewrite A.
  assert (X : eat_jobs 10 11 loaded = Some (tt, eaten 10 11 loaded))
    by apply eat_jobs_runs.
  rewrite X in E1. inversion E1. reflexivity.
Defined.

End reference.
